(** * Intelligence Layer: evaluation repository and model abstraction

    A shallow embedding of
    - [intelligence_layer/evaluation/evaluation/in_memory_evaluation_repository.py]
    - [intelligence_layer/core/model.py]
    - [intelligence_layer/evaluation/dataset/domain.py]
    - the helper [retry] of [tests/connectors/argilla/test_argilla_client.py]
    together with the properties stated about them.

    Python values are modelled as follows.
    - [str] is [string]; a Python string is read as its UTF-8 bytes, on which
      the byte-wise lexicographic order coincides with Python's code point
      order.
    - [dict] is stdpp's [gmap].  A [gmap] forgets Python's insertion order;
      the only place where the source iterates over a dict is
      [sorted(list(d.keys()))], whose result does not depend on that order
      (lemma [RepositoryFacts.evaluation_overview_ids_any_order]).
    - [list] is [list]; the lists held by the repository are never aliased
      (each is created by [[]] or by the [defaultdict] factory and only
      reached through the dict), so they are embedded by value.  The request
      shaping of [Llama3InstructModel] does mutate shared objects and is
      embedded over an explicit object store (module [Model]).
    - a raised exception is the [Raise] branch of [Py.raises]. *)

From Stdlib Require Import OrderedTypeEx ZArith Ascii.
From stdpp Require Import gmap strings list sorting pretty.

(** ** Python primitives used by the source *)

Module Py.

Inductive exn : Type :=
| ValueError (msg : string).

Inductive raises (A : Type) : Type :=
| Return (a : A)
| Raise (e : exn).
Arguments Return {A} a.
Arguments Raise {A} e.

(** [a < b] on [str]. *)
Definition str_lt (a b : string) : bool := String.ltb a b.

(** [a == b] on [str]. *)
Definition str_eq (a b : string) : bool := String.eqb a b.

(** [a <= b], as the negation of [b < a]. *)
Definition str_le (a b : string) : Prop := str_lt b a = false.

Section sorted.
Context {A : Type} (key : A → string).

(** Insertion of [x] in front of the first element whose key is not
    smaller than the key of [x]: [x] stays ahead of the elements with an
    equal key. *)
Fixpoint insort (x : A) (l : list A) : list A :=
  match l with
  | [] => [x]
  | y :: l' => if str_lt (key y) (key x) then y :: insort x l' else x :: l
  end.

(** [sorted(l, key=key)].  Python's sort is stable and compares keys with
    [<] only; every stable sort computes the same function, here it is
    insertion from the right. *)
Definition sorted (l : list A) : list A := foldr insort [] l.

(** Ascending by key, and strictly ascending by key. *)
Definition key_le (x y : A) : Prop := str_le (key x) (key y).
Definition key_lt (x y : A) : Prop := str_lt (key x) (key y) = true.

(** [next((x for x in l if key(x) == k), None)] *)
Definition next_with_key (k : string) (l : list A) : option A :=
  List.find (λ x, str_eq (key x) k) l.
End sorted.

(** [d[k]] on a [defaultdict(list)]: a missing key is first bound to a new
    empty list.  Returns the list found and the dict after the lookup. *)
Definition defaultdict_getitem {V : Type} (d : gmap string (list V)) (k : string)
  : list V * gmap string (list V) :=
  match d !! k with
  | Some l => (l, d)
  | None => ([], <[k := []]> d)
  end.

(** [k in d.keys()] *)
Definition contains {V : Type} (d : gmap string V) (k : string) : bool :=
  bool_decide (is_Some (d !! k)).

(** [list(d.keys())] *)
Definition keys {V : Type} (d : gmap string V) : list string :=
  (map_to_list d).*1.

End Py.

(** ** Records of [evaluation/evaluation/domain.py] *)

(** Modelled from the spec: the module [evaluation/evaluation/domain.py] that
    declares [EvaluationOverview], [PartialEvaluationOverview] and
    [ExampleEvaluation].  An overview is an [id] and run metadata; an example
    evaluation is [evaluation_id], [example_id] and a [result] payload.  The
    metadata and payload types are left abstract. *)
Module EvaluationOverview.
Record t (Meta : Type) : Type := mk { id : string; run_metadata : Meta }.
Arguments mk {Meta} id run_metadata.
Arguments id {Meta} _.
Arguments run_metadata {Meta} _.
End EvaluationOverview.

Module PartialEvaluationOverview.
Record t (Meta : Type) : Type := mk { id : string; run_metadata : Meta }.
Arguments mk {Meta} id run_metadata.
Arguments id {Meta} _.
Arguments run_metadata {Meta} _.
End PartialEvaluationOverview.

Module ExampleEvaluation.
Record t (Evaluation : Type) : Type :=
  mk { evaluation_id : string; example_id : string; result : Evaluation }.
Arguments mk {Evaluation} evaluation_id example_id result.
Arguments evaluation_id {Evaluation} _.
Arguments example_id {Evaluation} _.
Arguments result {Evaluation} _.
End ExampleEvaluation.

(** ** [class InMemoryEvaluationRepository] *)

Module InMemoryEvaluationRepository.
Import Py.

Section repository.
Context {Evaluation Meta : Type}.

Record t : Type := mk {
  _example_evaluations : gmap string (list (ExampleEvaluation.t Evaluation));
  _evaluation_overviews : gmap string (EvaluationOverview.t Meta)
}.

Definition __init__ : t := mk ∅ ∅.

Definition store_evaluation_overview
    (self : t) (overview : EvaluationOverview.t Meta) : t :=
  let overviews :=
    <[EvaluationOverview.id overview := overview]> (_evaluation_overviews self) in
  if negb (contains (_example_evaluations self) (EvaluationOverview.id overview))
  then mk (<[EvaluationOverview.id overview := []]> (_example_evaluations self))
          overviews
  else mk (_example_evaluations self) overviews.

Definition evaluation_overview
    (self : t) (evaluation_id : string) : option (EvaluationOverview.t Meta) :=
  _evaluation_overviews self !! evaluation_id.

Definition evaluation_overview_ids (self : t) : list string :=
  sorted (λ s, s) (keys (_evaluation_overviews self)).

Definition store_example_evaluation
    (self : t) (evaluation : ExampleEvaluation.t Evaluation) : t :=
  let '(l, d) := defaultdict_getitem (_example_evaluations self)
                   (ExampleEvaluation.evaluation_id evaluation) in
  mk (<[ExampleEvaluation.evaluation_id evaluation := l ++ [evaluation]]> d)
     (_evaluation_overviews self).

(** The [evaluation_type] argument only feeds [typing.cast], which
    returns its argument unchanged; it is kept as an unused binder. *)
Definition example_evaluations {EvaluationType : Type}
    (self : t) (evaluation_id : string) (evaluation_type : EvaluationType)
  : raises (list (ExampleEvaluation.t Evaluation)) :=
  if negb (contains (_example_evaluations self) evaluation_id)
  then Raise (ValueError
                ("Repository does not contain an evaluation with id: "
                   +:+ evaluation_id))
  else
    (* the key is present: this lookup leaves the defaultdict as it is *)
    let example_evaluations :=
      (defaultdict_getitem (_example_evaluations self) evaluation_id).1 in
    Return (sorted ExampleEvaluation.example_id example_evaluations).

Definition example_evaluation {EvaluationType : Type}
    (self : t) (evaluation_id example_id : string)
    (evaluation_type : EvaluationType)
  : raises (option (ExampleEvaluation.t Evaluation)) :=
  match example_evaluations self evaluation_id evaluation_type with
  | Raise e => Raise e
  | Return results =>
      Return (next_with_key ExampleEvaluation.example_id example_id results)
  end.

(** A call that changes the repository.  The four accessors above take
    the repository and return a value only: none of them writes. *)
Inductive call : Type :=
| StoreEvaluationOverview (overview : EvaluationOverview.t Meta)
| StoreExampleEvaluation (evaluation : ExampleEvaluation.t Evaluation).

Definition exec (self : t) (c : call) : t :=
  match c with
  | StoreEvaluationOverview o => store_evaluation_overview self o
  | StoreExampleEvaluation e => store_example_evaluation self e
  end.

Definition execs (self : t) (cs : list call) : t := foldl exec self cs.

(** The overview id a call makes known to the result store. *)
Definition registers (c : call) : string :=
  match c with
  | StoreEvaluationOverview o => EvaluationOverview.id o
  | StoreExampleEvaluation e => ExampleEvaluation.evaluation_id e
  end.

(** The overview id a call stores an overview under, if it stores one. *)
Definition stores_overview (c : call) : option string :=
  match c with
  | StoreEvaluationOverview o => Some (EvaluationOverview.id o)
  | StoreExampleEvaluation _ => None
  end.

(** The example evaluations that a sequence of calls stores under an
    overview id, in the order of the calls. *)
Definition evaluations_under (evaluation_id : string) (cs : list call)
  : list (ExampleEvaluation.t Evaluation) :=
  omap (λ c, match c with
             | StoreExampleEvaluation e =>
                 if decide (ExampleEvaluation.evaluation_id e = evaluation_id)
                 then Some e else None
             | StoreEvaluationOverview _ => None
             end) cs.

(** The error of [example_evaluations] for an unknown id. *)
Definition not_found (evaluation_id : string) : exn :=
  ValueError
    ("Repository does not contain an evaluation with id: " +:+ evaluation_id).

(** The results held under an overview id, in insertion order. *)
Definition stored_results (self : t) (evaluation_id : string)
  : list (ExampleEvaluation.t Evaluation) :=
  default [] (_example_evaluations self !! evaluation_id).
End repository.

Arguments t : clear implicits.
Arguments call : clear implicits.
End InMemoryEvaluationRepository.

(** ** [class AsyncInMemoryEvaluationRepository] *)

Module AsyncInMemoryEvaluationRepository.
Import Py.
Module Base := InMemoryEvaluationRepository.

Section repository.
Context {Evaluation Meta PartialMeta : Type}.

(** The subclass adds one attribute to those of its base class. *)
Record t : Type := mk {
  base : Base.t Evaluation Meta;
  _partial_evaluation_overviews :
    gmap string (PartialEvaluationOverview.t PartialMeta)
}.

Definition __init__ : t := mk Base.__init__ ∅.

(** Inherited methods act on the attributes of the base class. *)
Definition store_evaluation_overview
    (self : t) (overview : EvaluationOverview.t Meta) : t :=
  mk (Base.store_evaluation_overview (base self) overview)
     (_partial_evaluation_overviews self).

Definition store_example_evaluation
    (self : t) (evaluation : ExampleEvaluation.t Evaluation) : t :=
  mk (Base.store_example_evaluation (base self) evaluation)
     (_partial_evaluation_overviews self).

Definition evaluation_overview (self : t) (evaluation_id : string) :=
  Base.evaluation_overview (base self) evaluation_id.

Definition evaluation_overview_ids (self : t) : list string :=
  Base.evaluation_overview_ids (base self).

Definition example_evaluations {EvaluationType : Type}
    (self : t) (evaluation_id : string) (evaluation_type : EvaluationType) :=
  Base.example_evaluations (base self) evaluation_id evaluation_type.

Definition example_evaluation {EvaluationType : Type}
    (self : t) (evaluation_id example_id : string)
    (evaluation_type : EvaluationType) :=
  Base.example_evaluation (base self) evaluation_id example_id evaluation_type.

Definition store_partial_evaluation_overview
    (self : t) (overview : PartialEvaluationOverview.t PartialMeta) : t :=
  let partials :=
    <[PartialEvaluationOverview.id overview := overview]>
      (_partial_evaluation_overviews self) in
  if negb (contains (Base._example_evaluations (base self))
             (PartialEvaluationOverview.id overview))
  then mk (Base.mk
             (<[PartialEvaluationOverview.id overview := []]>
                (Base._example_evaluations (base self)))
             (Base._evaluation_overviews (base self)))
          partials
  else mk (base self) partials.

Definition partial_evaluation_overview
    (self : t) (evaluation_id : string)
  : option (PartialEvaluationOverview.t PartialMeta) :=
  _partial_evaluation_overviews self !! evaluation_id.

Definition partial_evaluation_overview_ids (self : t) : list string :=
  sorted (λ s, s) (keys (_partial_evaluation_overviews self)).

(** A call that changes the repository: one inherited from the base class,
    or the one the subclass adds. *)
Inductive call : Type :=
| Inherited (c : Base.call Evaluation Meta)
| StorePartialEvaluationOverview
    (overview : PartialEvaluationOverview.t PartialMeta).

Definition exec (self : t) (c : call) : t :=
  match c with
  | Inherited (Base.StoreEvaluationOverview o) => store_evaluation_overview self o
  | Inherited (Base.StoreExampleEvaluation e) => store_example_evaluation self e
  | StorePartialEvaluationOverview p => store_partial_evaluation_overview self p
  end.

Definition execs (self : t) (cs : list call) : t := foldl exec self cs.

(** The overview id a call makes known to the result store. *)
Definition registers (c : call) : string :=
  match c with
  | Inherited c => Base.registers c
  | StorePartialEvaluationOverview p => PartialEvaluationOverview.id p
  end.
End repository.

Arguments t : clear implicits.
Arguments call : clear implicits.
End AsyncInMemoryEvaluationRepository.

(** ** [core/model.py] *)

Module Model.
Import Py.

(** Identity of a mutable Python object. *)
Definition loc : Type := positive.

(** Modelled from the spec: the registry entries returned by the client
    capability's [models()], declared outside [core/model.py]: a sequence of
    mappings [{name, max_context_size, ...}].  The values of a mapping are
    not typed; [max_context_size] is an [int] or [None]. *)
Module ModelInfo.
Record t : Type := mk { name : string; max_context_size : option Z }.
End ModelInfo.

Section model.
(** [Params]: the fields of a [CompletionRequest] other than
    [stop_sequences]; [CompletionResponse]: what the client answers. *)
Context {Params CompletionResponse : Type}.

(** The attribute dict of a [CompleteInput] and of a [CompletionRequest]:
    [stop_sequences: Optional[List[str]]] is [None] or a reference to a
    list object. *)
Record fields : Type := Fields {
  stop_sequences : option loc;
  other_params : Params
}.

(** A request as the client serialises it. *)
Record sent_request : Type := Sent {
  sent_stop_sequences : option (list string);
  sent_params : Params;
  sent_model : string
}.

(** Modelled from the spec: the client capability
    [AlephAlphaClientProtocol] of [connectors/limited_concurrency_client.py],
    an opaque dependency with [complete(request, model) -> response] and
    [models() -> sequence of entries]. *)
Class AlephAlphaClientProtocol (Client : Type) : Type := {
  client_complete : Client → sent_request → CompletionResponse;
  client_models : Client → list ModelInfo.t
}.

(** The objects reachable by the program, the tracer's log and the
    requests the client has received. *)
Record world : Type := World {
  lists : gmap loc (list string);
  dicts : gmap loc fields;
  tracer_log : list (string * string);
  requests : list sent_request
}.

(** Computations over the world; [None] is a reference to an object that
    does not exist, which no Python program can hold. *)
Definition M (A : Type) : Type := world → option (A * world).

#[export] Instance M_ret : MRet M := λ A a w, Some (a, w).
#[export] Instance M_bind : MBind M := λ A B f m w,
  match m w with
  | Some (a, w') => f a w'
  | None => None
  end.

Definition get_dict (o : loc) : M fields :=
  λ w, f ← dicts w !! o; Some (f, w).

Definition set_stop_sequences (o : loc) (v : option loc) : M unit :=
  λ w, f ← dicts w !! o;
       Some ((), World (lists w)
                   (<[o := Fields v (other_params f)]> (dicts w))
                   (tracer_log w) (requests w)).

Definition read_list (l : loc) : M (list string) :=
  λ w, xs ← lists w !! l; Some (xs, w).

(** [l.append(x)] *)
Definition list_append (l : loc) (x : string) : M unit :=
  λ w, xs ← lists w !! l;
       Some ((), World (<[l := xs ++ [x]]> (lists w)) (dicts w)
                   (tracer_log w) (requests w)).

(** A list display [[x1, ..., xn]] creates a new list object. *)
Definition new_list (xs : list string) : M loc :=
  λ w, let l := fresh (dom (lists w)) in
       Some (l, World (<[l := xs]> (lists w)) (dicts w)
                  (tracer_log w) (requests w)).

Definition new_object (f : fields) : M loc :=
  λ w, let o := fresh (dom (dicts w)) in
       Some (o, World (lists w) (<[o := f]> (dicts w))
                  (tracer_log w) (requests w)).

(** [tracer.log(key, value)] *)
Definition log (key value : string) : M unit :=
  λ w, Some ((), World (lists w) (dicts w)
                   (tracer_log w ++ [(key, value)]) (requests w)).

(** The constructor call of [CompleteInput] on the unpacked [params]
    dict: a new object; validation of a
    [List[str]] field builds a new list of the same elements. *)
Definition CompleteInput (params : loc) : M loc :=
  f ← get_dict params;
  ss ← match stop_sequences f with
       | None => mret None
       | Some l => xs ← read_list l; l' ← new_list xs; mret (Some l')
       end;
  new_object (Fields ss (other_params f)).

(** The constructor call of [CompletionRequest] on the unpacked
    [self.__dict__]: a dataclass instance holding
    the same references as the input. *)
Definition to_completion_request (self : loc) : M fields := get_dict self.

Record CompleteOutput : Type := { response : CompletionResponse }.

Definition from_completion_response (r : CompletionResponse) : CompleteOutput :=
  {| response := r |}.

Section client.
Context {Client : Type} `{!AlephAlphaClientProtocol Client}.

(** The client receives a request and answers it. *)
Definition send (client : Client) (r : sent_request) : M CompletionResponse :=
  λ w, Some (client_complete client r,
             World (lists w) (dicts w) (tracer_log w) (requests w ++ [r])).

(** [self._client.complete(request=..., model=...)]: the request is
    sent with the contents its list has at the time of the call. *)
Definition complete_call (client : Client) (request : fields) (model : string)
  : M CompletionResponse :=
  ss ← match stop_sequences request with
       | None => mret None
       | Some l => xs ← read_list l; mret (Some xs)
       end;
  send client (Sent ss (other_params request) model).

(** [_Complete.do_run] *)
Definition do_run (client : Client) (model : string) (input : loc)
  : M CompleteOutput :=
  log "Model" model;;
  request ← to_completion_request input;
  r ← complete_call client request model;
  mret (from_completion_response r).

(** Modelled from the spec: [Task.run] of [core/task.py], which runs
    [do_run] on the input under the given tracer. *)
Definition run (client : Client) (model : string) (input : loc)
  : M CompleteOutput :=
  do_run client model input.

Record AlephAlphaModel : Type := {
  name : string;
  _client : Client
}.

Definition EOT_TOKEN : string := "<|eot_id|>".

(** The body of the property [context_size]. *)
Definition context_size (self : AlephAlphaModel) : raises Z :=
  let models_info := client_models (_client self) in
  let context_size :=
    next_with_key ModelInfo.name (name self) models_info
      ≫= ModelInfo.max_context_size in
  match context_size with
  | None => Raise (ValueError
                     ("No matching model found for name " +:+ name self))
  | Some n => Return n
  end.

(** [@property] over [@lru_cache(maxsize=10)]: a read returns the value
    memoised for the object if there is one; otherwise it runs the body
    and memoises the value returned, a raised error is not memoised.
    [memo] is the cache entry of [self]; an eviction empties it. *)
Definition read_context_size (self : AlephAlphaModel) (memo : option Z)
  : raises Z * option Z :=
  match memo with
  | Some n => (Return n, memo)
  | None =>
      match context_size self with
      | Return n => (Return n, Some n)
      | Raise e => (Raise e, None)
      end
  end.

(** The outcome of the read that follows [k] earlier reads. *)
Fixpoint nth_context_size (self : AlephAlphaModel) (k : nat) (memo : option Z)
  : raises Z :=
  match k with
  | O => (read_context_size self memo).1
  | S k' => nth_context_size self k' (read_context_size self memo).2
  end.

(** [AlephAlphaModel.complete]; the tracer it is given is the one whose
    log the world holds. *)
Definition complete (self : AlephAlphaModel) (input : loc) : M CompleteOutput :=
  run (_client self) (name self) input.

Definition _add_eot_token_to_stop_sequences (input : loc) : M loc :=
  (* [input.__dict__] is the dict of the object itself, not a copy *)
  let params := input in
  f ← get_dict params;
  match stop_sequences f with
  | Some l =>
      xs ← read_list l;
      if bool_decide (EOT_TOKEN ∈ xs) then mret ()
      else list_append l EOT_TOKEN
  | None =>
      l ← new_list [EOT_TOKEN];
      set_stop_sequences params (Some l)
  end;;
  CompleteInput params.

(** [Llama3InstructModel.complete] *)
Definition Llama3InstructModel_complete
    (self : AlephAlphaModel) (input : loc) : M CompleteOutput :=
  input_with_eot ← _add_eot_token_to_stop_sequences input;
  complete self input_with_eot.

(** The stop sequences of the shaped request, from those of the input. *)
Definition shaped_stop_sequences (ss : option (list string)) : list string :=
  match ss with
  | Some xs => if bool_decide (EOT_TOKEN ∈ xs) then xs else xs ++ [EOT_TOKEN]
  | None => [EOT_TOKEN]
  end.

(** The value of [input.stop_sequences] as the caller reads it. *)
Definition read_stop_sequences (w : world) (input : loc)
  : option (option (list string)) :=
  f ← dicts w !! input;
  match stop_sequences f with
  | None => Some None
  | Some l => xs ← lists w !! l; Some (Some xs)
  end.
End client.
End model.

Arguments fields : clear implicits.
Arguments sent_request : clear implicits.
Arguments world : clear implicits.
Arguments M : clear implicits.
Arguments AlephAlphaClientProtocol : clear implicits.
Arguments AlephAlphaModel : clear implicits.
Arguments CompleteOutput : clear implicits.
End Model.

(** ** Histories of the repository *)

Module History.
Import InMemoryEvaluationRepository.

Section history.
Context {Evaluation Meta : Type}.

(** The overviews that a sequence of calls stores under an id, in the order
    of the calls. *)
Definition overviews_under (id : string) (cs : list (call Evaluation Meta))
  : list (EvaluationOverview.t Meta) :=
  omap (λ c, match c with
             | StoreEvaluationOverview o =>
                 if decide (EvaluationOverview.id o = id) then Some o else None
             | StoreExampleEvaluation _ => None
             end) cs.
End history.
End History.

(** ** [evaluation/dataset/domain.py] *)

Module Domain.

(** The characters that the f-strings of the module write by escapes. *)
Definition newline : string := String "010"%char "".
Definition quote : string := String "034"%char "".

Definition has_newline (s : string) : Prop :=
  "010"%char ∈ String.list_ascii_of_string s.

Module Dataset.
Record t : Type := mk { id : string; name : string }.

Definition __str__ (self : t) : string :=
  "Dataset ID = " +:+ id self +:+ newline +:+ "Name = " +:+ name self +:+ newline.

Definition __repr__ (self : t) : string := __str__ self.
End Dataset.

Module Example.
Section example.
(** [str_input] and [str_expected_output]: what formatting a value of the
    type parameters [Input] and [ExpectedOutput] in an f-string gives. *)
Context {Input ExpectedOutput : Type}.
Context (str_input : Input → string).
Context (str_expected_output : ExpectedOutput → string).

Record t : Type := mk {
  input : Input;
  expected_output : ExpectedOutput;
  id : string
}.

Definition __str__ (self : t) : string :=
  "Example ID = " +:+ id self +:+ newline
  +:+ "Input = " +:+ str_input (input self) +:+ newline
  +:+ "Expected output = " +:+ quote
  +:+ str_expected_output (expected_output self) +:+ quote +:+ newline.

Definition __repr__ (self : t) : string := __str__ self.
End example.

Arguments t : clear implicits.
End Example.
End Domain.

(** ** [tests/connectors/argilla/test_argilla_client.py]: [retry] *)

Module TestArgillaClient.

Inductive outcome (R : Type) : Type :=
| Returned (r : R)
| AssertionError (msg : string).
Arguments Returned {R} r.
Arguments AssertionError {R} msg.

Section retry.
(** [f] is a closure with effects: a call takes the state [S] it acts on
    and returns its result and the state after the call.  [until] is a
    pure test.  The pause between two attempts is not modelled. *)
Context {S R : Type}.

(** The loop [for i in range: r = f(); if until(r): return r].  It gives
    the value returned, or the value that [i] holds when the range is
    exhausted ([i0] before the first iteration). *)
Fixpoint for_range (range : list nat) (i0 : nat)
    (f : S → R * S) (until : R → bool) (s : S) : (R + nat) * S :=
  match range with
  | [] => (inr i0, s)
  | i :: range' =>
      let '(r, s') := f s in
      if until r then (inl r, s') else for_range range' i f until s'
  end.

Definition retry (f : S → R * S) (until : R → bool) (s : S) : outcome R * S :=
  match for_range (seq 0 10) 0 f until s with
  | (inl r, s') => (Returned r, s')
  | (inr i, s') =>
      (AssertionError ("Condition not met after " +:+ pretty i +:+ " retries"),
       s')
  end.

(** The result and the state of the call of [f] that follows [k] earlier
    calls, and the state after [n] calls. *)
Fixpoint call_n (f : S → R * S) (s : S) (k : nat) : R * S :=
  match k with
  | O => f s
  | Datatypes.S k' => call_n f (f s).2 k'
  end.

Fixpoint state_after (f : S → R * S) (s : S) (n : nat) : S :=
  match n with
  | O => s
  | Datatypes.S n' => state_after f (f s).2 n'
  end.
End retry.
End TestArgillaClient.

(** ** Invariants used in the statements below *)

Module Invariants.

Section repository.
Context {Evaluation Meta PartialMeta : Type}.

(** Every id with a final or a partial overview is a key of the result
    store. *)
Definition overviews_registered
    (self : AsyncInMemoryEvaluationRepository.t Evaluation Meta PartialMeta)
  : Prop :=
  ∀ id,
    is_Some (AsyncInMemoryEvaluationRepository.evaluation_overview self id)
    ∨ is_Some
        (AsyncInMemoryEvaluationRepository.partial_evaluation_overview self id) →
    is_Some
      (InMemoryEvaluationRepository._example_evaluations
         (AsyncInMemoryEvaluationRepository.base self) !! id).
End repository.

Section model.
Context {Params : Type}.

(** Every object of [w] exists in [w'] with the same parameters other than
    [stop_sequences]. *)
Definition keeps_params (w w' : Model.world Params) : Prop :=
  ∀ o f,
    Model.dicts w !! o = Some f →
    ∃ f', Model.dicts w' !! o = Some f'
          ∧ Model.other_params f' = Model.other_params f.
End model.
End Invariants.

(** ** Concrete values used to instantiate the statements below *)

Module Fixtures.
Definition overview (id : string) : EvaluationOverview.t unit :=
  EvaluationOverview.mk id ().

Definition partial_overview (id : string) : PartialEvaluationOverview.t unit :=
  PartialEvaluationOverview.mk id ().

Definition evaluation (evaluation_id example_id : string) (score : nat)
  : ExampleEvaluation.t nat :=
  ExampleEvaluation.mk evaluation_id example_id score.

Definition empty_repository : InMemoryEvaluationRepository.t nat unit :=
  InMemoryEvaluationRepository.__init__.

Definition empty_async_repository
  : AsyncInMemoryEvaluationRepository.t nat unit unit :=
  AsyncInMemoryEvaluationRepository.__init__.

(** A client that answers every request with its number of stop sequences
    and serves a fixed registry. *)
Record stub_client : Type := { registry : list Model.ModelInfo.t }.

#[export] Instance stub_client_protocol
  : Model.AlephAlphaClientProtocol unit nat stub_client := {|
  Model.client_complete := λ _ r,
    length (default [] (Model.sent_stop_sequences r));
  Model.client_models := registry
|}.

Definition llama3 : Model.AlephAlphaModel stub_client :=
  {| Model.name := "llama-3-8b-instruct";
     Model._client :=
       {| registry :=
            [ Model.ModelInfo.mk "luminous-base-control" (Some 2048%Z);
              Model.ModelInfo.mk "llama-3-8b-instruct" (Some 8192%Z) ] |} |}.

Definition unknown_model : Model.AlephAlphaModel stub_client :=
  {| Model.name := "no-such-model"; Model._client := Model._client llama3 |}.

(** The model [llama3] once its client serves a registry without it. *)
Definition llama3_deregistered : Model.AlephAlphaModel stub_client :=
  {| Model.name := "llama-3-8b-instruct";
     Model._client := {| registry := [] |} |}.

(** A model whose registry entry carries no context size. *)
Definition model_without_size : Model.AlephAlphaModel stub_client :=
  {| Model.name := "preview-model";
     Model._client :=
       {| registry := [ Model.ModelInfo.mk "preview-model" None ] |} |}.

(** A world holding one [CompleteInput], object [1], whose
    [stop_sequences] is the list object [2] with elements [xs]. *)
Definition world_with_input (xs : list string) : Model.world unit :=
  Model.World {[ 2%positive := xs ]}
              {[ 1%positive := Model.Fields (Some 2%positive) () ]} [] [].

(** A world holding one [CompleteInput], object [1], whose
    [stop_sequences] is [None]. *)
Definition world_with_input_None : Model.world unit :=
  Model.World ∅ {[ 1%positive := Model.Fields None () ]} [] [].
End Fixtures.

(** * Properties *)

(** ** The order on [str] and [sorted] *)

Module PyFacts.
Import Py.

Lemma str_lt_compare a b : str_lt a b = true ↔ String.compare a b = Lt.
Proof. unfold str_lt, String.ltb. destruct (String.compare a b); naive_solver. Qed.

(** [str_lt] is the lexicographic order on the characters' codes. *)
Lemma str_lt_lexicographic a b : str_lt a b = true ↔ String_as_OT.lt a b.
Proof. rewrite str_lt_compare. apply String_as_OT.cmp_lt. Qed.

Lemma str_lt_irrefl a : str_lt a a = false.
Proof.
  apply not_true_is_false. rewrite str_lt_compare.
  assert (String.compare a a = Eq) as -> by (by apply String_as_OT.cmp_eq).
  done.
Qed.

Lemma str_lt_trans a b c :
  str_lt a b = true → str_lt b c = true → str_lt a c = true.
Proof.
  rewrite !str_lt_compare. intros Hab Hbc.
  apply String_as_OT.cmp_lt in Hab, Hbc. apply String_as_OT.cmp_lt.
  by eapply String_as_OT.lt_trans.
Qed.

Lemma str_lt_asym a b : str_lt a b = true → str_lt b a = false.
Proof.
  intros Hab. apply not_true_is_false. intros Hba.
  pose proof (str_lt_trans _ _ _ Hab Hba) as Haa.
  by rewrite str_lt_irrefl in Haa.
Qed.

Lemma str_lt_connex a b : str_lt a b = false → str_lt b a = false → a = b.
Proof.
  intros Hab Hba. apply String_as_OT.cmp_eq.
  destruct (String_as_OT.cmp a b) eqn:Hc; [done| |].
  - apply str_lt_compare in Hc. congruence.
  - unfold String_as_OT.cmp in Hc. rewrite String_as_OT.cmp_antisym in Hc.
    assert (String_as_OT.cmp b a = Lt) as Hc'
      by (destruct (String_as_OT.cmp b a); naive_solver).
    apply str_lt_compare in Hc'. congruence.
Qed.

Lemma str_le_trans a b c : str_le a b → str_le b c → str_le a c.
Proof.
  unfold str_le. intros Hab Hbc.
  destruct (str_lt c a) eqn:Hca; [|done].
  destruct (str_lt c b) eqn:Hcb; [congruence|].
  destruct (str_lt b c) eqn:Hbc'.
  - pose proof (str_lt_trans _ _ _ Hbc' Hca). congruence.
  - assert (b = c) as -> by by apply str_lt_connex. congruence.
Qed.

Section sorted.
Context {A : Type} (key : A → string).
Local Abbreviation key_le := (Py.key_le key).
Local Abbreviation key_lt := (Py.key_lt key).

Lemma key_lt_le x y : key_lt x y → key_le x y.
Proof. apply str_lt_asym. Qed.

Lemma insort_Permutation x l : insort key x l ≡ₚ x :: l.
Proof.
  induction l as [|y l IH]; simpl; [done|].
  destruct (str_lt (key y) (key x)); [|done].
  rewrite IH. apply Permutation_swap.
Qed.

Lemma sorted_Permutation l : sorted key l ≡ₚ l.
Proof.
  induction l as [|x l IH]; simpl; [done|].
  by rewrite insort_Permutation, IH.
Qed.

Lemma sorted_length l : length (sorted key l) = length l.
Proof. by rewrite sorted_Permutation. Qed.

Lemma sorted_elem_of x l : x ∈ sorted key l ↔ x ∈ l.
Proof. by rewrite sorted_Permutation. Qed.

Lemma sorted_nil_inv l : sorted key l = [] → l = [].
Proof.
  intros H. apply Permutation_nil_r. by rewrite <-H, sorted_Permutation.
Qed.

Lemma insort_StronglySorted x l :
  StronglySorted key_le l → StronglySorted key_le (insort key x l).
Proof.
  induction 1 as [|y l Hl IH Hy]; simpl.
  - repeat constructor.
  - destruct (str_lt (key y) (key x)) eqn:Hyx.
    + constructor; [done|].
      rewrite insort_Permutation. constructor; [|done].
      by apply key_lt_le.
    + constructor; [by constructor|].
      constructor; [done|].
      eapply Forall_impl; [exact Hy|]. intros z Hz.
      unfold key_le in *. by eapply str_le_trans.
Qed.

Lemma sorted_StronglySorted l : StronglySorted key_le (sorted key l).
Proof.
  induction l as [|x l IH]; simpl; [constructor|].
  by apply insort_StronglySorted.
Qed.

(** With pairwise distinct keys the result is strictly ascending. *)
Lemma sorted_StronglySorted_lt l :
  NoDup (key <$> l) → StronglySorted key_lt (sorted key l).
Proof.
  intros Hnd.
  assert (NoDup (key <$> sorted key l)) as Hnd'
    by by rewrite sorted_Permutation.
  pose proof (sorted_StronglySorted l) as Hs.
  induction Hs as [|x l' Hl' IH Hx]; [constructor|].
  rewrite fmap_cons in Hnd'. apply NoDup_cons in Hnd' as [Hx' Hnd'].
  constructor; [by apply IH|].
  apply Forall_forall. intros y Hy.
  rewrite Forall_forall in Hx. specialize (Hx y Hy).
  unfold key_lt, key_le, str_le in *.
  destruct (str_lt (key x) (key y)) eqn:Hxy; [done|].
  exfalso. apply Hx'. apply list_elem_of_fmap. exists y.
  split; [|done]. by apply str_lt_connex.
Qed.

(** Stability: elements with equal keys keep their relative order. *)
Lemma insort_filter_key k x l :
  filter (λ y, key y = k) (insort key x l)
  = filter (λ y, key y = k) (x :: l).
Proof.
  induction l as [|y l IH]; simpl; [done|].
  destruct (str_lt (key y) (key x)) eqn:Hyx; [|done].
  rewrite filter_cons, IH, !filter_cons.
  destruct (decide (key y = k)) as [Hy|Hy],
           (decide (key x = k)) as [Hx|Hx]; try done.
  rewrite Hy, Hx, str_lt_irrefl in Hyx. done.
Qed.

Lemma sorted_stable k l :
  filter (λ y, key y = k) (sorted key l) = filter (λ y, key y = k) l.
Proof.
  induction l as [|x l IH]; simpl; [done|].
  by rewrite insort_filter_key, !filter_cons, IH.
Qed.

(** The result does not depend on the order of the input when the keys
    are pairwise distinct. *)
Lemma sorted_Permutation_eq l1 l2 :
  NoDup (key <$> l1) → l1 ≡ₚ l2 → sorted key l1 = sorted key l2.
Proof.
  intros Hnd Hp.
  apply (StronglySorted_unique_strong key_le);
    [|apply sorted_StronglySorted..|by rewrite !sorted_Permutation].
  intros x1 x2 H1 H2 H12 H21.
  rewrite sorted_elem_of in H1, H2. rewrite <-Hp in H2.
  assert (key x1 = key x2) as Hk by by apply str_lt_connex.
  apply list_elem_of_lookup in H1 as [i1 H1], H2 as [i2 H2].
  assert (i1 = i2) as ->; [|congruence].
  eapply NoDup_lookup; [exact Hnd| |]; rewrite list_lookup_fmap.
  - by rewrite H1.
  - by rewrite H2, Hk.
Qed.

Lemma next_with_key_Some k l e :
  next_with_key key k l = Some e →
  ∃ pre post, l = pre ++ e :: post ∧ key e = k
              ∧ Forall (λ x, key x ≠ k) pre.
Proof.
  unfold next_with_key, str_eq.
  induction l as [|x l IH]; simpl; [done|].
  destruct (String.eqb_spec (key x) k) as [Hx|Hx].
  - intros [= ->]. by exists [], l.
  - intros (pre & post & -> & ? & ?)%IH.
    exists (x :: pre), post. split_and!; [done..|by constructor].
Qed.

Lemma next_with_key_None k l :
  next_with_key key k l = None ↔ Forall (λ x, key x ≠ k) l.
Proof.
  unfold next_with_key, str_eq.
  induction l as [|x l IH]; simpl; [by split; [constructor|]|].
  rewrite Forall_cons, <-IH.
  destruct (String.eqb_spec (key x) k) as [Hx|Hx].
  - split; [done|]. by intros [? _].
  - split; [done|]. by intros [_ ?].
Qed.

Lemma next_with_key_first k pre e post :
  Forall (λ x, key x ≠ k) pre → key e = k →
  next_with_key key k (pre ++ e :: post) = Some e.
Proof.
  unfold next_with_key, str_eq. intros Hpre He.
  induction Hpre as [|x pre Hx _ IH]; simpl.
  - by destruct (String.eqb_spec (key e) k).
  - by destruct (String.eqb_spec (key x) k).
Qed.
End sorted.

Lemma sorted_Permutation_id (l1 l2 : list string) :
  NoDup l1 → l1 ≡ₚ l2 → sorted (λ s, s) l1 = sorted (λ s, s) l2.
Proof.
  intros Hnd. apply sorted_Permutation_eq. by rewrite list_fmap_id.
Qed.

Lemma contains_true {V} (d : gmap string V) k :
  contains d k = true ↔ is_Some (d !! k).
Proof. unfold contains. by rewrite bool_decide_eq_true. Qed.

Lemma contains_false {V} (d : gmap string V) k :
  contains d k = false ↔ d !! k = None.
Proof.
  unfold contains. by rewrite bool_decide_eq_false, eq_None_not_Some.
Qed.

Lemma elem_of_keys {V} (d : gmap string V) k : k ∈ keys d ↔ is_Some (d !! k).
Proof.
  unfold keys. rewrite list_elem_of_fmap. split.
  - intros ([k' v] & -> & Hkv). apply elem_of_map_to_list in Hkv. by exists v.
  - intros [v Hv]. exists (k, v). by rewrite elem_of_map_to_list.
Qed.

Lemma NoDup_keys {V} (d : gmap string V) : NoDup (keys d).
Proof. apply NoDup_fst_map_to_list. Qed.
End PyFacts.

(** ** The in-memory repository *)

Module RepositoryFacts.
Import Py PyFacts InMemoryEvaluationRepository.

Section facts.
Context {Evaluation Meta : Type}.
Implicit Types (self : t Evaluation Meta) (id : string).
Implicit Types (o : EvaluationOverview.t Meta).
Implicit Types (e : ExampleEvaluation.t Evaluation).
Implicit Types (c : call Evaluation Meta) (cs : list (call Evaluation Meta)).

(** *** Reading *)

Lemma example_evaluations_registered {T} self id (ty : T) l :
  _example_evaluations self !! id = Some l →
  example_evaluations self id ty
  = Return (sorted ExampleEvaluation.example_id l).
Proof.
  intros Hl. unfold example_evaluations, defaultdict_getitem.
  assert (contains (_example_evaluations self) id = true) as ->
    by by apply contains_true.
  by rewrite Hl.
Qed.

Lemma example_evaluations_unregistered {T} self id (ty : T) :
  _example_evaluations self !! id = None →
  example_evaluations self id ty = Raise (not_found id).
Proof.
  intros Hl. unfold example_evaluations.
  by assert (contains (_example_evaluations self) id = false) as ->
    by by apply contains_false.
Qed.

(** *** Writing *)

Lemma results_store_evaluation_overview self o id :
  _example_evaluations (store_evaluation_overview self o) !! id
  = if decide (id = EvaluationOverview.id o)
    then Some (stored_results self id)
    else _example_evaluations self !! id.
Proof.
  unfold store_evaluation_overview, stored_results.
  destruct (contains _ _) eqn:Hc; simpl.
  - apply contains_true in Hc as [l Hl].
    case_decide; [subst; by rewrite Hl|done].
  - apply contains_false in Hc. rewrite lookup_insert.
    repeat case_decide; subst; try done. by rewrite Hc.
Qed.

(** An id already known to the result store keeps its collection. *)
Lemma results_store_evaluation_overview_registered self o :
  is_Some (_example_evaluations self !! EvaluationOverview.id o) →
  _example_evaluations (store_evaluation_overview self o)
  = _example_evaluations self.
Proof.
  intros Hreg. unfold store_evaluation_overview.
  by assert (contains (_example_evaluations self) (EvaluationOverview.id o)
             = true) as -> by by apply contains_true.
Qed.

Lemma overviews_store_evaluation_overview self o :
  _evaluation_overviews (store_evaluation_overview self o)
  = <[EvaluationOverview.id o := o]> (_evaluation_overviews self).
Proof.
  unfold store_evaluation_overview. by destruct (negb _).
Qed.

Lemma results_store_example_evaluation self e id :
  _example_evaluations (store_example_evaluation self e) !! id
  = if decide (id = ExampleEvaluation.evaluation_id e)
    then Some (stored_results self id ++ [e])
    else _example_evaluations self !! id.
Proof.
  unfold store_example_evaluation, defaultdict_getitem, stored_results.
  destruct (_ !! ExampleEvaluation.evaluation_id e) as [l|] eqn:Hl; simpl;
    rewrite !lookup_insert; repeat case_decide; subst; try done;
    by rewrite Hl.
Qed.

Lemma overviews_store_example_evaluation self e :
  _evaluation_overviews (store_example_evaluation self e)
  = _evaluation_overviews self.
Proof.
  unfold store_example_evaluation. by destruct (defaultdict_getitem _ _).
Qed.

Lemma repository_eq self1 self2 :
  _example_evaluations self1 = _example_evaluations self2 →
  _evaluation_overviews self1 = _evaluation_overviews self2 →
  self1 = self2.
Proof. destruct self1, self2; simpl; congruence. Qed.

(** A call that registers another id leaves both dicts alone at [id]. *)
Lemma exec_other self c id :
  registers c ≠ id →
  _example_evaluations (exec self c) !! id = _example_evaluations self !! id
  ∧ _evaluation_overviews (exec self c) !! id
    = _evaluation_overviews self !! id.
Proof.
  intros Hc. destruct c as [o|e]; simpl in *.
  - rewrite results_store_evaluation_overview,
      overviews_store_evaluation_overview, lookup_insert_ne by done.
    by rewrite decide_False by done.
  - rewrite results_store_example_evaluation,
      overviews_store_example_evaluation.
    by rewrite decide_False by done.
Qed.

Lemma execs_other self cs id :
  Forall (λ c, registers c ≠ id) cs →
  _example_evaluations (execs self cs) !! id
  = _example_evaluations self !! id
  ∧ _evaluation_overviews (execs self cs) !! id
    = _evaluation_overviews self !! id.
Proof.
  intros Hcs. revert self.
  induction Hcs as [|c cs Hc _ IH]; intros self; simpl; [done|].
  destruct (exec_other self c id Hc) as [<- <-]. apply IH.
Qed.

(** A call that stores no overview under [id] leaves the overview dict
    alone at [id]. *)
Lemma execs_overviews_other self cs id :
  Forall (λ c, stores_overview c ≠ Some id) cs →
  _evaluation_overviews (execs self cs) !! id = _evaluation_overviews self !! id.
Proof.
  intros Hcs. revert self.
  induction Hcs as [|c cs Hc _ IH]; intros self; simpl; [done|].
  rewrite IH. destruct c as [o|e]; simpl in *.
  - rewrite overviews_store_evaluation_overview, lookup_insert_ne; [done|].
    congruence.
  - by rewrite overviews_store_example_evaluation.
Qed.

(** Appending results: what is held under [id] afterwards. *)
Lemma results_store_example_evaluations self es id :
  is_Some (_example_evaluations self !! id) →
  _example_evaluations (foldl store_example_evaluation self es) !! id
  = Some (stored_results self id
            ++ filter (λ e, ExampleEvaluation.evaluation_id e = id) es).
Proof.
  revert self. induction es as [|e es IH]; intros self [l Hl]; simpl.
  - unfold stored_results. by rewrite Hl, app_nil_r.
  - rewrite IH.
    + unfold stored_results at 1.
      rewrite results_store_example_evaluation, filter_cons.
      case_decide; subst; simpl.
      * rewrite decide_True by done. by rewrite <-app_assoc.
      * rewrite decide_False by done. unfold stored_results. by rewrite Hl.
    + rewrite results_store_example_evaluation. by case_decide.
Qed.

Lemma filter_all_evaluation_id es id :
  Forall (λ e, ExampleEvaluation.evaluation_id e = id) es →
  filter (λ e, ExampleEvaluation.evaluation_id e = id) es = es.
Proof.
  induction 1 as [|e es He _ IH]; [done|].
  by rewrite filter_cons, decide_True, IH by done.
Qed.

(** The sorted listing of the overview ids. *)
Lemma evaluation_overview_ids_elem_of self id :
  id ∈ evaluation_overview_ids self ↔ is_Some (evaluation_overview self id).
Proof.
  unfold evaluation_overview_ids, evaluation_overview.
  by rewrite sorted_elem_of, elem_of_keys.
Qed.

(** The listing is the same for every order in which the keys of the dict
    are enumerated, Python's insertion order among them. *)
Lemma evaluation_overview_ids_any_order self (ks : list string) :
  NoDup ks →
  (∀ id, id ∈ ks ↔ is_Some (evaluation_overview self id)) →
  sorted (λ s, s) ks = evaluation_overview_ids self.
Proof.
  intros Hnd Hks. apply sorted_Permutation_id; [done|].
  apply NoDup_Permutation; [done|apply NoDup_keys|].
  intros id. by rewrite Hks, elem_of_keys.
Qed.

Lemma evaluation_overview_ids_sorted self :
  StronglySorted (λ a b, str_lt a b = true) (evaluation_overview_ids self).
Proof.
  apply (sorted_StronglySorted_lt (λ s, s)).
  rewrite list_fmap_id. apply NoDup_keys.
Qed.

Lemma evaluation_overview_ids_NoDup self :
  NoDup (evaluation_overview_ids self).
Proof.
  unfold evaluation_overview_ids.
  rewrite sorted_Permutation. apply NoDup_keys.
Qed.

Lemma store_evaluation_overview_idemp self o :
  store_evaluation_overview (store_evaluation_overview self o) o
  = store_evaluation_overview self o.
Proof.
  apply repository_eq.
  - apply map_eq. intros id.
    rewrite !results_store_evaluation_overview.
    case_decide; [|done]. unfold stored_results at 1.
    rewrite results_store_evaluation_overview. by rewrite decide_True.
  - rewrite !overviews_store_evaluation_overview. apply insert_insert_eq.
Qed.

(** Storing under an id that is already stored replaces the overview. *)
Lemma store_evaluation_overview_last_wins self o o' :
  EvaluationOverview.id o' = EvaluationOverview.id o →
  store_evaluation_overview (store_evaluation_overview self o') o
  = store_evaluation_overview self o.
Proof.
  intros Hid. apply repository_eq.
  - apply map_eq. intros id.
    rewrite !results_store_evaluation_overview.
    case_decide; [|by rewrite Hid, decide_False].
    unfold stored_results at 1.
    rewrite results_store_evaluation_overview.
    by rewrite Hid, decide_True.
  - rewrite !overviews_store_evaluation_overview, Hid.
    apply insert_insert_eq.
Qed.

(** The ids stored along a sequence of calls. *)
Lemma execs_overview_ids cs id :
  is_Some (evaluation_overview (execs __init__ cs) id)
  ↔ ∃ o, StoreEvaluationOverview o ∈ cs ∧ EvaluationOverview.id o = id.
Proof.
  unfold evaluation_overview.
  assert (∀ self,
    is_Some (_evaluation_overviews (execs self cs) !! id)
    ↔ is_Some (_evaluation_overviews self !! id)
      ∨ ∃ o, StoreEvaluationOverview o ∈ cs ∧ EvaluationOverview.id o = id)
    as Hgen.
  { induction cs as [|c cs IH]; intros self; simpl.
    - split; [by left|]. intros [?|(o & []%elem_of_nil & _)]. done.
    - rewrite IH. destruct c as [o|e]; simpl.
      + rewrite overviews_store_evaluation_overview, lookup_insert.
        case_decide as Ho.
        * split; [|by eauto]. intros _. right. exists o.
          split; [left|done].
        * split.
          -- intros [?|(o' & ? & ?)]; [by left|right].
             exists o'. split; [by right|done].
          -- intros [?|(o' & Ho' & ?)]; [by left|right].
             apply elem_of_cons in Ho' as [[= ->]|?]; [done|by exists o'].
      + rewrite overviews_store_example_evaluation. split.
        * intros [?|(o' & ? & ?)]; [by left|right].
          exists o'. split; [by right|done].
        * intros [?|(o' & Ho' & ?)]; [by left|right].
          apply elem_of_cons in Ho' as [[=]|?]. by exists o'. }
  rewrite Hgen. simpl. rewrite lookup_empty.
  split; [intros [[? [=]]|?]; done|by right].
Qed.

(** *** The result store after a sequence of calls *)

Lemma stored_results_exec self c id :
  stored_results (exec self c) id
  = stored_results self id ++ evaluations_under id [c].
Proof.
  unfold stored_results at 1. destruct c as [o|e]; simpl.
  - rewrite results_store_evaluation_overview, app_nil_r.
    by case_decide.
  - rewrite results_store_example_evaluation.
    destruct (decide (id = _)) as [->|Hne].
    + by rewrite decide_True.
    + rewrite decide_False by done. by rewrite app_nil_r.
Qed.

Lemma stored_results_execs self cs id :
  stored_results (execs self cs) id
  = stored_results self id ++ evaluations_under id cs.
Proof.
  revert self. induction cs as [|c cs IH]; intros self; simpl.
  - by rewrite app_nil_r.
  - rewrite IH, stored_results_exec, <-app_assoc. f_equal.
    unfold evaluations_under. simpl. by destruct (_ : option _).
Qed.

(** An id stays registered, and the call that registers it does so. *)
Lemma registered_exec self c id :
  is_Some (_example_evaluations self !! id) ∨ registers c = id →
  is_Some (_example_evaluations (exec self c) !! id).
Proof.
  intros Hreg. destruct c as [o|e]; simpl in *.
  - rewrite results_store_evaluation_overview.
    case_decide; [done|]. by destruct Hreg.
  - rewrite results_store_example_evaluation.
    case_decide; [done|]. by destruct Hreg.
Qed.

Lemma registered_execs self cs id :
  is_Some (_example_evaluations self !! id)
  ∨ Exists (λ c, registers c = id) cs →
  is_Some (_example_evaluations (execs self cs) !! id).
Proof.
  revert self. induction cs as [|c cs IH]; intros self Hreg; simpl.
  - destruct Hreg as [?|Hex]; [done|by apply Exists_nil in Hex].
  - apply IH. destruct Hreg as [?|Hex].
    + left. apply registered_exec. by left.
    + apply Exists_cons in Hex as [?|?]; [left|by right].
      apply registered_exec. by right.
Qed.

(** The listing of a registered id after any sequence of calls. *)
Lemma example_evaluations_execs {T} cs id (ty : T) :
  Exists (λ c, registers c = id) cs →
  example_evaluations (execs __init__ cs) id ty
  = Return (sorted ExampleEvaluation.example_id (evaluations_under id cs)).
Proof.
  intros Hreg.
  destruct (registered_execs __init__ cs id (or_intror Hreg)) as [l Hl].
  rewrite (example_evaluations_registered _ _ _ _ Hl). do 2 f_equal.
  pose proof (stored_results_execs __init__ cs id) as Hs.
  unfold stored_results in Hs. rewrite Hl in Hs. simpl in Hs.
  by rewrite lookup_empty in Hs.
Qed.

(** *** Statements about the synchronous repository *)

(** C1 (as amended).  After [store_evaluation_overview(o)], on any
    repository, [evaluation_overview(o.id)] returns [o], and
    [example_evaluations(o.id, T)] does not raise: it returns the results
    already held under [o.id], sorted by example id.  That sequence is
    empty exactly when no result was held under [o.id] before the call. *)
Theorem store_evaluation_overview_then_read {T} self o (ty : T) :
  evaluation_overview (store_evaluation_overview self o)
    (EvaluationOverview.id o) = Some o
  ∧ example_evaluations (store_evaluation_overview self o)
      (EvaluationOverview.id o) ty
    = Return (sorted ExampleEvaluation.example_id
                (stored_results self (EvaluationOverview.id o)))
  ∧ (example_evaluations (store_evaluation_overview self o)
       (EvaluationOverview.id o) ty = Return []
     ↔ stored_results self (EvaluationOverview.id o) = []).
Proof.
  assert (example_evaluations (store_evaluation_overview self o)
            (EvaluationOverview.id o) ty
          = Return (sorted ExampleEvaluation.example_id
                      (stored_results self (EvaluationOverview.id o))))
    as Hread.
  { apply example_evaluations_registered.
    rewrite results_store_evaluation_overview. by rewrite decide_True. }
  split_and!; [|done|].
  - unfold evaluation_overview.
    by rewrite overviews_store_evaluation_overview, lookup_insert_eq.
  - rewrite Hread. split.
    + intros [= Hs]. by apply sorted_nil_inv in Hs.
    + by intros ->.
Qed.

(** C2.  For an overview id that no call has registered,
    [example_evaluations(id, T)] raises the not-found error and
    [evaluation_overview(id)] returns [None]. *)
Theorem unknown_id_not_found {T} cs id (ty : T) :
  Forall (λ c, registers c ≠ id) cs →
  example_evaluations (execs __init__ cs) id ty = Raise (not_found id)
  ∧ evaluation_overview (execs __init__ cs) id = None.
Proof.
  intros Hcs. destruct (execs_other __init__ cs id Hcs) as [Hr Ho].
  split.
  - apply example_evaluations_unregistered. by rewrite Hr.
  - unfold evaluation_overview. by rewrite Ho.
Qed.

(** The listing after appending to a registered id that holds no results:
    the appended results with pairwise distinct example ids, in strictly
    ascending order, whatever the order [es'] of insertion. *)
Lemma example_evaluations_after_appending {T} self id es es' (ty : T) :
  _example_evaluations self !! id = Some [] →
  Forall (λ e, ExampleEvaluation.evaluation_id e = id) es →
  NoDup (ExampleEvaluation.example_id <$> es) →
  es' ≡ₚ es →
  example_evaluations (foldl store_example_evaluation self es') id ty
  = Return (sorted ExampleEvaluation.example_id es).
Proof.
  intros Hid Hes Hnd Hp.
  erewrite example_evaluations_registered; last first.
  { apply results_store_example_evaluations. by rewrite Hid. }
  unfold stored_results. rewrite Hid. simpl.
  rewrite filter_all_evaluation_id by by rewrite Hp.
  f_equal. apply sorted_Permutation_eq; [by rewrite Hp|done].
Qed.

(** C3.  Let an overview be stored under an id, and let the example
    evaluations stored under that id, by any sequence of calls, be [N]
    values with pairwise distinct example ids.  Then
    [example_evaluations(id, T)] returns exactly those [N] results in
    strictly ascending order of example id, and every other sequence of
    calls that stores the same values under the id, in whatever order,
    yields the same listing. *)
Theorem example_evaluations_sorted_any_order {T} cs o (ty : T) :
  StoreEvaluationOverview o ∈ cs →
  NoDup (ExampleEvaluation.example_id
           <$> evaluations_under (EvaluationOverview.id o) cs) →
  ∃ results,
    example_evaluations (execs __init__ cs) (EvaluationOverview.id o) ty
    = Return results
    ∧ length results = length (evaluations_under (EvaluationOverview.id o) cs)
    ∧ results ≡ₚ evaluations_under (EvaluationOverview.id o) cs
    ∧ StronglySorted (key_lt ExampleEvaluation.example_id) results
    ∧ (∀ cs',
         Exists (λ c, registers c = EvaluationOverview.id o) cs' →
         evaluations_under (EvaluationOverview.id o) cs'
           ≡ₚ evaluations_under (EvaluationOverview.id o) cs →
         example_evaluations (execs __init__ cs') (EvaluationOverview.id o) ty
         = Return results).
Proof.
  intros Ho Hnd.
  assert (Exists (λ c, registers c = EvaluationOverview.id o) cs) as Hreg.
  { apply Exists_exists. by exists (StoreEvaluationOverview o). }
  eexists. split_and!.
  - by apply example_evaluations_execs.
  - apply sorted_length.
  - apply sorted_Permutation.
  - by apply sorted_StronglySorted_lt.
  - intros cs' Hreg' Hp. rewrite example_evaluations_execs by done.
    f_equal. apply sorted_Permutation_eq; [by rewrite Hp|done].
Qed.

(** C6.  When no call has stored an overview under the overview id of
    [e], [store_example_evaluation(e)] makes [example_evaluations] succeed
    on that id, returning the results stored under it with [e] among them,
    while [evaluation_overview] still returns [None].  When no call has
    registered the id in any way, the result is [[e]]. *)
Theorem store_example_evaluation_registers_id {T} cs e (ty : T) :
  Forall (λ c, stores_overview c ≠ Some (ExampleEvaluation.evaluation_id e)) cs →
  ∃ results,
    example_evaluations (store_example_evaluation (execs __init__ cs) e)
      (ExampleEvaluation.evaluation_id e) ty = Return results
    ∧ results
      = sorted ExampleEvaluation.example_id
          (stored_results (execs __init__ cs)
             (ExampleEvaluation.evaluation_id e) ++ [e])
    ∧ e ∈ results
    ∧ (Forall (λ c, registers c ≠ ExampleEvaluation.evaluation_id e) cs →
       results = [e])
    ∧ evaluation_overview (store_example_evaluation (execs __init__ cs) e)
        (ExampleEvaluation.evaluation_id e) = None.
Proof.
  intros Hcs. eexists. split_and!.
  - apply example_evaluations_registered.
    rewrite results_store_example_evaluation. by rewrite decide_True.
  - done.
  - rewrite sorted_elem_of. apply elem_of_app. right. left.
  - intros Hnone. destruct (execs_other __init__ cs _ Hnone) as [Hr _].
    unfold stored_results. by rewrite Hr.
  - unfold evaluation_overview.
    by rewrite overviews_store_example_evaluation,
         (execs_overviews_other __init__ cs _ Hcs).
Qed.

(** C8.  [store_evaluation_overview] is an idempotent upsert: storing
    the same overview [n + 1] times gives the state of storing it once,
    and storing it after any overviews with the same id gives the state of
    storing it alone.  [evaluation_overview_ids()] is always strictly
    ascending in the order of [str], has no duplicates, and holds exactly
    the ids of the stored overviews, which after any sequence of calls are
    the ids passed to [store_evaluation_overview]. *)
Theorem store_evaluation_overview_upsert self o (n : nat) cs :
  Nat.iter (S n) (λ r, store_evaluation_overview r o) self
  = store_evaluation_overview self o
  ∧ (∀ os, Forall (λ o', EvaluationOverview.id o' = EvaluationOverview.id o) os →
           foldl store_evaluation_overview self (os ++ [o])
           = store_evaluation_overview self o)
  ∧ StronglySorted (λ a b, str_lt a b = true) (evaluation_overview_ids self)
  ∧ NoDup (evaluation_overview_ids self)
  ∧ (∀ id, id ∈ evaluation_overview_ids self
           ↔ is_Some (evaluation_overview self id))
  ∧ (∀ id, id ∈ evaluation_overview_ids (execs __init__ cs)
           ↔ ∃ o', StoreEvaluationOverview o' ∈ cs
                   ∧ EvaluationOverview.id o' = id).
Proof.
  split_and!.
  - induction n as [|n IH]; [done|].
    rewrite Nat.iter_succ, IH. apply store_evaluation_overview_idemp.
  - intros os Hos. revert self.
    induction Hos as [|o' os Ho' _ IH]; intros self; simpl; [done|].
    rewrite IH. by apply store_evaluation_overview_last_wins.
  - apply evaluation_overview_ids_sorted.
  - apply evaluation_overview_ids_NoDup.
  - apply evaluation_overview_ids_elem_of.
  - intros id.
    by rewrite evaluation_overview_ids_elem_of, execs_overview_ids.
Qed.

(** C9.  For a registered overview id, [example_evaluation] does not
    raise; it returns the first result with the given example id in the
    overview's collection sorted by example id, and [None] exactly when
    no result stored under the overview carries that example id. *)
Theorem example_evaluation_first_match {T} self id example_id (ty : T) l :
  _example_evaluations self !! id = Some l →
  ∃ found,
    example_evaluation self id example_id ty = Return found
    ∧ (∀ e, found = Some e
            ↔ ∃ pre post,
                sorted ExampleEvaluation.example_id l = pre ++ e :: post
                ∧ ExampleEvaluation.example_id e = example_id
                ∧ Forall (λ x, ExampleEvaluation.example_id x ≠ example_id)
                    pre)
    ∧ (found = None
       ↔ Forall (λ x, ExampleEvaluation.example_id x ≠ example_id) l).
Proof.
  intros Hl. unfold example_evaluation.
  rewrite (example_evaluations_registered _ _ _ _ Hl).
  eexists. split_and!; [done| |].
  - intros e. split.
    + apply next_with_key_Some.
    + intros (pre & post & -> & ? & ?). by apply next_with_key_first.
  - rewrite next_with_key_None, !Forall_forall.
    by setoid_rewrite sorted_elem_of.
Qed.
End facts.

(** *** The statements at concrete repositories *)

Import Fixtures.

(** C1 as first stated fails: when an overview is stored again after a
    result has been stored under its id, the result is still listed. *)
Lemma example_evaluations_nonempty_after_store_overview :
  example_evaluations
    (execs empty_repository
       [StoreEvaluationOverview (overview "run");
        StoreExampleEvaluation (evaluation "run" "a" 1);
        StoreEvaluationOverview (overview "run")])
    "run" ()
  = Return [evaluation "run" "a" 1]
  ∧ example_evaluations
      (execs empty_repository
         [StoreEvaluationOverview (overview "run");
          StoreExampleEvaluation (evaluation "run" "a" 1);
          StoreEvaluationOverview (overview "run")])
      "run" ()
    ≠ Return [].
Proof. split; [by vm_compute|]. by vm_compute. Qed.

Lemma unknown_id_not_found_witness :
  Forall (λ c, registers c ≠ "c")
    [StoreEvaluationOverview (overview "a");
     StoreExampleEvaluation (evaluation "b" "x" 0)]
  ∧ example_evaluations
      (execs empty_repository
         [StoreEvaluationOverview (overview "a");
          StoreExampleEvaluation (evaluation "b" "x" 0)]) "c" ()
    = Raise (not_found "c")
  ∧ evaluation_overview
      (execs empty_repository
         [StoreEvaluationOverview (overview "a");
          StoreExampleEvaluation (evaluation "b" "x" 0)]) "c"
    = None.
Proof.
  assert (Forall (λ c : call nat unit, registers c ≠ "c")
            [StoreEvaluationOverview (overview "a");
             StoreExampleEvaluation (evaluation "b" "x" 0)]) as H
    by (repeat constructor; discriminate).
  split; [exact H|].
  exact (unknown_id_not_found _ "c" () H).
Defined.

Lemma example_evaluations_sorted_any_order_witness :
  ∃ results,
    example_evaluations
      (execs empty_repository
         [StoreEvaluationOverview (overview "eval-1");
          StoreExampleEvaluation (evaluation "eval-1" "b" 2);
          StoreExampleEvaluation (evaluation "other" "c" 3);
          StoreExampleEvaluation (evaluation "eval-1" "a" 1)])
      "eval-1" ()
    = Return results
    ∧ results = [evaluation "eval-1" "a" 1; evaluation "eval-1" "b" 2]
    ∧ example_evaluations
        (execs empty_repository
           [StoreExampleEvaluation (evaluation "eval-1" "a" 1);
            StoreEvaluationOverview (overview "eval-1");
            StoreExampleEvaluation (evaluation "eval-1" "b" 2)])
        "eval-1" ()
      = Return results.
Proof.
  destruct (example_evaluations_sorted_any_order
              [StoreEvaluationOverview (overview "eval-1");
               StoreExampleEvaluation (evaluation "eval-1" "b" 2);
               StoreExampleEvaluation (evaluation "other" "c" 3);
               StoreExampleEvaluation (evaluation "eval-1" "a" 1)]
              (overview "eval-1") ())
    as (results & Hrun & _ & _ & _ & Hany).
  - left.
  - apply NoDup_cons. split; [|apply NoDup_singleton].
    intros [=]%list_elem_of_singleton.
  - exists results. split_and!; [exact Hrun| |].
    + enough (Return results
              = Return [evaluation "eval-1" "a" 1; evaluation "eval-1" "b" 2])
        by congruence.
      rewrite <-Hrun. reflexivity.
    + apply Hany; [|apply Permutation_swap].
      apply Exists_cons. by left.
Defined.

Lemma store_example_evaluation_registers_id_witness :
  ∃ results,
    example_evaluations
      (store_example_evaluation
         (execs empty_repository [StoreEvaluationOverview (overview "a")])
         (evaluation "b" "x" 3))
      "b" ()
    = Return results
    ∧ results = [evaluation "b" "x" 3]
    ∧ evaluation_overview
        (store_example_evaluation
           (execs empty_repository [StoreEvaluationOverview (overview "a")])
           (evaluation "b" "x" 3))
        "b"
      = None.
Proof.
  assert (Forall (λ c : call nat unit, stores_overview c ≠ Some "b")
            [StoreEvaluationOverview (overview "a")]) as Hcs
    by (repeat constructor; discriminate).
  destruct (store_example_evaluation_registers_id
              [StoreEvaluationOverview (overview "a")]
              (evaluation "b" "x" 3) () Hcs)
    as (results & Hrun & _ & _ & Hnew & Hnone).
  exists results. split_and!; [exact Hrun| |exact Hnone].
  apply Hnew. repeat constructor. discriminate.
Defined.

Lemma example_evaluation_first_match_witness :
  ∃ found,
    example_evaluation
      (execs empty_repository
         [StoreEvaluationOverview (overview "eval-1");
          StoreExampleEvaluation (evaluation "eval-1" "b" 2);
          StoreExampleEvaluation (evaluation "eval-1" "a" 1)])
      "eval-1" "a" ()
    = Return found
    ∧ (∀ e, found = Some e
            ↔ ∃ pre post,
                sorted ExampleEvaluation.example_id
                  [evaluation "eval-1" "b" 2; evaluation "eval-1" "a" 1]
                = pre ++ e :: post
                ∧ ExampleEvaluation.example_id e = "a"
                ∧ Forall (λ x, ExampleEvaluation.example_id x ≠ "a") pre)
    ∧ (found = None
       ↔ Forall (λ x, ExampleEvaluation.example_id x ≠ "a")
           [evaluation "eval-1" "b" 2; evaluation "eval-1" "a" 1]).
Proof.
  apply (example_evaluation_first_match
           (execs empty_repository
              [StoreEvaluationOverview (overview "eval-1");
               StoreExampleEvaluation (evaluation "eval-1" "b" 2);
               StoreExampleEvaluation (evaluation "eval-1" "a" 1)])
           "eval-1" "a" ()).
  reflexivity.
Defined.

(** The scenario of the specification: results come back sorted, and the
    point lookup finds the result of example [a]. *)
Example scenario_eval_1 :
  let repository :=
    execs empty_repository
      [StoreEvaluationOverview (overview "eval-1");
       StoreExampleEvaluation (evaluation "eval-1" "b" 2);
       StoreExampleEvaluation (evaluation "eval-1" "a" 1)] in
  example_evaluations repository "eval-1" ()
  = Return [evaluation "eval-1" "a" 1; evaluation "eval-1" "b" 2]
  ∧ example_evaluation repository "eval-1" "a" ()
    = Return (Some (evaluation "eval-1" "a" 1)).
Proof. by vm_compute. Qed.
End RepositoryFacts.

(** ** The asynchronous repository *)

Module AsyncRepositoryFacts.
Import Py PyFacts AsyncInMemoryEvaluationRepository.
Import RepositoryFacts.

Section facts.
Context {Evaluation Meta PartialMeta : Type}.
Implicit Types (self : t Evaluation Meta PartialMeta) (id : string).
Implicit Types (p : PartialEvaluationOverview.t PartialMeta).
Implicit Types (o : EvaluationOverview.t Meta).
Implicit Types (e : ExampleEvaluation.t Evaluation).

Lemma results_store_partial_evaluation_overview self p id :
  Base._example_evaluations
    (base (store_partial_evaluation_overview self p)) !! id
  = if decide (id = PartialEvaluationOverview.id p)
    then Some (Base.stored_results (base self) id)
    else Base._example_evaluations (base self) !! id.
Proof.
  unfold store_partial_evaluation_overview, Base.stored_results.
  destruct (contains _ _) eqn:Hc; simpl.
  - apply contains_true in Hc as [l Hl].
    case_decide; [subst; by rewrite Hl|done].
  - apply contains_false in Hc. rewrite lookup_insert.
    repeat case_decide; subst; try done. by rewrite Hc.
Qed.

Lemma partials_store_partial_evaluation_overview self p :
  _partial_evaluation_overviews (store_partial_evaluation_overview self p)
  = <[PartialEvaluationOverview.id p := p]>
      (_partial_evaluation_overviews self).
Proof.
  unfold store_partial_evaluation_overview. by destruct (negb _).
Qed.

Lemma base_store_example_evaluations self (es : list (ExampleEvaluation.t Evaluation)) :
  base (foldl store_example_evaluation self es)
  = foldl Base.store_example_evaluation (base self) es.
Proof.
  revert self. induction es as [|e es IH]; intros self; simpl; [done|].
  by rewrite IH.
Qed.

(** A call that registers another id leaves the result store and the
    overview dict alone at [id]. *)
Lemma async_execs_other self (cs : list (call Evaluation Meta PartialMeta)) id :
  Forall (λ c, registers c ≠ id) cs →
  Base._example_evaluations (base (execs self cs)) !! id
  = Base._example_evaluations (base self) !! id
  ∧ Base._evaluation_overviews (base (execs self cs)) !! id
    = Base._evaluation_overviews (base self) !! id.
Proof.
  intros Hcs. revert self.
  induction Hcs as [|c cs Hc _ IH]; intros self; simpl; [done|].
  destruct (IH (exec self c)) as [-> ->].
  destruct c as [c|p]; simpl in *.
  - destruct (exec_other (base self) c id Hc) as [<- <-].
    by destruct c.
  - rewrite results_store_partial_evaluation_overview.
    rewrite decide_False by done.
    unfold store_partial_evaluation_overview. by destruct (negb _).
Qed.

(** The statement of C2 on the asynchronous repository, where a partial
    overview registers its id as well. *)
Lemma async_unknown_id_not_found {T}
    (cs : list (call Evaluation Meta PartialMeta)) id (ty : T) :
  Forall (λ c, registers c ≠ id) cs →
  example_evaluations (execs __init__ cs) id ty = Raise (Base.not_found id)
  ∧ evaluation_overview (execs __init__ cs) id = None.
Proof.
  intros Hcs. destruct (async_execs_other __init__ cs id Hcs) as [Hr Ho].
  split.
  - apply example_evaluations_unregistered. by rewrite Hr.
  - unfold evaluation_overview, Base.evaluation_overview. by rewrite Ho.
Qed.

(** C7.  After [store_partial_evaluation_overview(p)], on any
    repository, [example_evaluations(p.id, T)] returns a sequence
    instead of raising, the empty one if nothing is held under [p.id];
    results appended under [p.id] are listed, and a later
    [store_evaluation_overview] with the same id leaves the result
    collections as they are. *)
Theorem partial_overview_shares_results {T} self p o es (ty : T) :
  EvaluationOverview.id o = PartialEvaluationOverview.id p →
  Forall (λ e, ExampleEvaluation.evaluation_id e
               = PartialEvaluationOverview.id p) es →
  let started := store_partial_evaluation_overview self p in
  let appended := foldl store_example_evaluation started es in
  partial_evaluation_overview started (PartialEvaluationOverview.id p)
  = Some p
  ∧ example_evaluations started (PartialEvaluationOverview.id p) ty
    = Return (sorted ExampleEvaluation.example_id
                (Base.stored_results (base self)
                   (PartialEvaluationOverview.id p)))
  ∧ (Base.stored_results (base self) (PartialEvaluationOverview.id p) = []
     → example_evaluations started (PartialEvaluationOverview.id p) ty
       = Return [])
  ∧ example_evaluations appended (PartialEvaluationOverview.id p) ty
    = Return (sorted ExampleEvaluation.example_id
                (Base.stored_results (base self)
                   (PartialEvaluationOverview.id p) ++ es))
  ∧ Base._example_evaluations (base (store_evaluation_overview appended o))
    = Base._example_evaluations (base appended)
  ∧ example_evaluations (store_evaluation_overview appended o)
      (PartialEvaluationOverview.id p) ty
    = example_evaluations appended (PartialEvaluationOverview.id p) ty.
Proof.
  intros Hid Hes started appended.
  assert (Base._example_evaluations (base started)
            !! PartialEvaluationOverview.id p
          = Some (Base.stored_results (base self)
                    (PartialEvaluationOverview.id p))) as Hstarted.
  { unfold started. rewrite results_store_partial_evaluation_overview.
    by rewrite decide_True. }
  assert (Base._example_evaluations (base appended)
            !! PartialEvaluationOverview.id p
          = Some (Base.stored_results (base self)
                    (PartialEvaluationOverview.id p) ++ es)) as Happended.
  { unfold appended. rewrite base_store_example_evaluations.
    rewrite results_store_example_evaluations by by rewrite Hstarted.
    rewrite filter_all_evaluation_id by done.
    unfold Base.stored_results at 1. by rewrite Hstarted. }
  assert (Base._example_evaluations (base (store_evaluation_overview appended o))
          = Base._example_evaluations (base appended)) as Hkept.
  { simpl. apply results_store_evaluation_overview_registered.
    by rewrite Hid, Happended. }
  split_and!.
  - unfold partial_evaluation_overview, started.
    by rewrite partials_store_partial_evaluation_overview, lookup_insert_eq.
  - by apply example_evaluations_registered.
  - intros Hnone. unfold example_evaluations.
    rewrite (example_evaluations_registered _ _ _ _ Hstarted).
    by rewrite Hnone.
  - by apply example_evaluations_registered.
  - done.
  - unfold example_evaluations.
    rewrite (example_evaluations_registered (base appended) _ _ _ Happended).
    apply example_evaluations_registered. by rewrite Hkept.
Qed.
End facts.

Import Fixtures.

Lemma partial_overview_shares_results_witness :
  let started :=
    store_partial_evaluation_overview empty_async_repository
      (partial_overview "run") in
  let appended :=
    foldl store_example_evaluation started
      [evaluation "run" "b" 2; evaluation "run" "a" 1] in
  example_evaluations started "run" () = Return []
  ∧ example_evaluations appended "run" ()
    = Return [evaluation "run" "a" 1; evaluation "run" "b" 2]
  ∧ example_evaluations (store_evaluation_overview appended (overview "run"))
      "run" ()
    = Return [evaluation "run" "a" 1; evaluation "run" "b" 2].
Proof.
  assert (Forall (λ e : ExampleEvaluation.t nat,
                    ExampleEvaluation.evaluation_id e = "run")
            [evaluation "run" "b" 2; evaluation "run" "a" 1]) as Hes
    by repeat constructor.
  destruct (partial_overview_shares_results
              empty_async_repository (partial_overview "run") (overview "run")
              [evaluation "run" "b" 2; evaluation "run" "a" 1] ()
              eq_refl Hes)
    as (_ & _ & Hempty & Happ & _ & Hkept).
  split_and!.
  - by apply Hempty.
  - exact Happ.
  - exact (eq_trans Hkept Happ).
Defined.
End AsyncRepositoryFacts.

(** ** The model abstraction *)

Module ModelFacts.
Import Py PyFacts Model.

Section facts.
Context {Params CompletionResponse Client : Type}.
Context `{!AlephAlphaClientProtocol Params CompletionResponse Client}.
Implicit Types (w : world Params) (self : AlephAlphaModel Client).
Implicit Types (f : fields Params) (l o input : loc).

(** *** Steps of a computation *)

Lemma bind_Some {A B} (m : M Params A) (k : A → M Params B) w a w' :
  m w = Some (a, w') → (m ≫= k) w = k a w'.
Proof. intros Hm. unfold mbind, M_bind. by rewrite Hm. Qed.

Lemma get_dict_Some w o f : dicts w !! o = Some f → get_dict o w = Some (f, w).
Proof. intros Hf. unfold get_dict. by rewrite Hf. Qed.

Lemma read_list_Some w l xs :
  lists w !! l = Some xs → read_list l w = Some (xs, w).
Proof. intros Hl. unfold read_list. by rewrite Hl. Qed.

Lemma fresh_list_ne w l xs : lists w !! l = Some xs → fresh (dom (lists w)) ≠ l.
Proof.
  intros Hl Heq. apply (is_fresh (dom (lists w))).
  rewrite Heq. apply elem_of_dom. eauto.
Qed.

Lemma fresh_object_ne w o f : dicts w !! o = Some f → fresh (dom (dicts w)) ≠ o.
Proof.
  intros Hf Heq. apply (is_fresh (dom (dicts w))).
  rewrite Heq. apply elem_of_dom. eauto.
Qed.

Lemma read_stop_sequences_list w input f l xs :
  dicts w !! input = Some f → stop_sequences f = Some l →
  lists w !! l = Some xs →
  read_stop_sequences w input = Some (Some xs).
Proof.
  intros Hf Hss Hl. unfold read_stop_sequences.
  rewrite Hf. simpl. rewrite Hss, Hl. done.
Qed.

Lemma read_stop_sequences_None w input f :
  dicts w !! input = Some f → stop_sequences f = None →
  read_stop_sequences w input = Some None.
Proof.
  intros Hf Hss. unfold read_stop_sequences.
  rewrite Hf. simpl. by rewrite Hss.
Qed.

Lemma read_stop_sequences_inv w input v :
  read_stop_sequences w input = Some v →
  ∃ f, dicts w !! input = Some f
       ∧ match v with
         | None => stop_sequences f = None
         | Some xs => ∃ l, stop_sequences f = Some l ∧ lists w !! l = Some xs
         end.
Proof.
  unfold read_stop_sequences.
  destruct (dicts w !! input) as [f|]; [|done]. simpl.
  destruct (stop_sequences f) as [l|] eqn:Hss.
  - destruct (lists w !! l) as [xs|] eqn:Hl; [|done]. simpl.
    intros [= <-]. eauto.
  - intros [= <-]. eauto.
Qed.

(** *** [CompleteInput] and [complete] *)

(** The new input is a new object with the same field values; every
    object that existed keeps its state. *)
Lemma CompleteInput_spec w params f v :
  dicts w !! params = Some f →
  read_stop_sequences w params = Some v →
  ∃ o' w' f',
    CompleteInput params w = Some (o', w')
    ∧ dicts w' !! o' = Some f'
    ∧ other_params f' = other_params f
    ∧ read_stop_sequences w' o' = Some v
    ∧ read_stop_sequences w' params = Some v
    ∧ tracer_log w' = tracer_log w
    ∧ requests w' = requests w.
Proof.
  intros Hf Hv. unfold CompleteInput.
  rewrite (bind_Some _ _ _ _ _ (get_dict_Some _ _ _ Hf)).
  apply read_stop_sequences_inv in Hv as (f0 & Hf0 & Hv).
  assert (f0 = f) as -> by congruence.
  destruct v as [xs|].
  - destruct Hv as (l & Hss & Hl). rewrite Hss.
    unfold mbind at 1, M_bind at 1.
    rewrite (bind_Some _ _ _ _ _ (read_list_Some _ _ _ Hl)).
    unfold new_list, new_object, mbind, M_bind, mret, M_ret. simpl.
    pose proof (fresh_list_ne _ _ _ Hl) as Hl'.
    pose proof (fresh_object_ne _ _ _ Hf) as Ho'.
    eexists _, _, _. split_and!; [done|simpl..].
    + by rewrite lookup_insert_eq.
    + done.
    + eapply read_stop_sequences_list; simpl;
        [by rewrite lookup_insert_eq|done|by rewrite lookup_insert_eq].
    + eapply read_stop_sequences_list; simpl;
        [by rewrite lookup_insert_ne|done|by rewrite lookup_insert_ne].
    + done.
    + done.
  - rewrite Hv.
    unfold new_object, mbind, M_bind, mret, M_ret. simpl.
    pose proof (fresh_object_ne _ _ _ Hf) as Ho'.
    eexists _, _, _. split_and!; [done|simpl..].
    + by rewrite lookup_insert_eq.
    + done.
    + eapply read_stop_sequences_None; simpl;
        [by rewrite lookup_insert_eq|done].
    + eapply read_stop_sequences_None; simpl;
        [by rewrite lookup_insert_ne|done].
    + done.
    + done.
Qed.

Lemma complete_spec self w input f v :
  dicts w !! input = Some f →
  read_stop_sequences w input = Some v →
  complete self input w
  = Some (from_completion_response
            (client_complete (_client self)
               (Sent v (other_params f) (name self))),
          World (lists w) (dicts w)
            (tracer_log w ++ [("Model", name self)])
            (requests w ++ [Sent v (other_params f) (name self)])).
Proof.
  intros Hf Hv.
  apply read_stop_sequences_inv in Hv as (f0 & Hf0 & Hv).
  assert (f0 = f) as -> by congruence.
  unfold complete, run, do_run, complete_call, send, log,
    to_completion_request, get_dict, read_list, mbind, M_bind, mret, M_ret.
  simpl. rewrite Hf. simpl.
  destruct v as [xs|].
  - destruct Hv as (l & -> & Hl). simpl. by rewrite Hl.
  - by rewrite Hv.
Qed.

(** *** Request shaping *)

(** [_add_eot_token_to_stop_sequences] returns a new input holding the
    shaped stop sequences, and leaves the same value in the input it was
    given. *)
Lemma _add_eot_token_to_stop_sequences_spec w input f v :
  dicts w !! input = Some f →
  read_stop_sequences w input = Some v →
  ∃ o' w' f',
    _add_eot_token_to_stop_sequences input w = Some (o', w')
    ∧ dicts w' !! o' = Some f'
    ∧ other_params f' = other_params f
    ∧ read_stop_sequences w' o' = Some (Some (shaped_stop_sequences v))
    ∧ read_stop_sequences w' input = Some (Some (shaped_stop_sequences v))
    ∧ tracer_log w' = tracer_log w
    ∧ requests w' = requests w.
Proof.
  intros Hf Hv. unfold _add_eot_token_to_stop_sequences.
  rewrite (bind_Some _ _ _ _ _ (get_dict_Some _ _ _ Hf)).
  pose proof Hv as Hv'.
  apply read_stop_sequences_inv in Hv' as (f0 & Hf0 & Hv').
  assert (f0 = f) as -> by congruence.
  destruct v as [xs|]; simpl.
  - destruct Hv' as (l & Hss & Hl). rewrite Hss.
    unfold mbind at 1, M_bind at 1.
    rewrite (bind_Some _ _ _ _ _ (read_list_Some _ _ _ Hl)).
    case_bool_decide as Heot.
    + unfold mret, M_ret. by apply CompleteInput_spec.
    + unfold list_append. rewrite Hl. simpl.
      set (w1 := World (<[l := xs ++ [EOT_TOKEN]]> (lists w)) (dicts w)
                   (tracer_log w) (requests w)).
      apply (CompleteInput_spec w1 input f); [done|].
      eapply read_stop_sequences_list; [done..|].
      simpl. by rewrite lookup_insert_eq.
  - rewrite Hv'.
    unfold mbind at 1, M_bind at 1, mbind at 1, M_bind at 1.
    unfold new_list, set_stop_sequences. simpl. rewrite Hf. simpl.
    set (l := fresh (dom (lists w))).
    set (w1 := World (<[l := [EOT_TOKEN]]> (lists w))
                 (<[input := Fields (Some l) (other_params f)]> (dicts w))
                 (tracer_log w) (requests w)).
    apply (CompleteInput_spec w1 input (Fields (Some l) (other_params f))).
    + simpl. by rewrite lookup_insert_eq.
    + eapply read_stop_sequences_list; simpl;
        [by rewrite lookup_insert_eq|done|by rewrite lookup_insert_eq].
Qed.

(** [Llama3InstructModel.complete]: the request sent, the output, the
    trace entry, and the value left in the caller's input. *)
Lemma Llama3InstructModel_complete_spec self w input f v :
  dicts w !! input = Some f →
  read_stop_sequences w input = Some v →
  ∃ w',
    Llama3InstructModel_complete self input w
    = Some (from_completion_response
              (client_complete (_client self)
                 (Sent (Some (shaped_stop_sequences v)) (other_params f)
                    (name self))),
            w')
    ∧ requests w'
      = requests w ++ [Sent (Some (shaped_stop_sequences v)) (other_params f)
                         (name self)]
    ∧ tracer_log w' = tracer_log w ++ [("Model", name self)]
    ∧ read_stop_sequences w' input = Some (Some (shaped_stop_sequences v)).
Proof.
  intros Hf Hv.
  destruct (_add_eot_token_to_stop_sequences_spec w input f v Hf Hv)
    as (o' & w1 & f' & Hrun & Hf' & Hother & Hnew & Hold & Hlog & Hreq).
  unfold Llama3InstructModel_complete.
  rewrite (bind_Some _ _ _ _ _ Hrun).
  rewrite (complete_spec self w1 o' f' _ Hf' Hnew), Hother.
  eexists. split_and!; [done|simpl..].
  - by rewrite Hreq.
  - by rewrite Hlog.
  - done.
Qed.
(** The caller's input reads as before exactly when its list already
    held the marker. *)
Lemma shaped_stop_sequences_unchanged v :
  Some (shaped_stop_sequences v) = v ↔ ∃ xs, v = Some xs ∧ EOT_TOKEN ∈ xs.
Proof.
  destruct v as [xs|]; simpl.
  - case_bool_decide as Heot.
    + split; [eauto|done].
    + split.
      * intros [= Hxs]. apply (f_equal length) in Hxs.
        rewrite length_app in Hxs. simpl in Hxs. lia.
      * intros (xs' & [= <-] & ?). done.
  - split; [done|]. by intros (xs & [=] & _).
Qed.

(** [Llama3InstructModel.complete] leaves the caller's input as it was
    only when its list already held the marker. *)
Lemma llama3_complete_input_unchanged_iff self w input v :
  read_stop_sequences w input = Some v →
  ∃ out w',
    Llama3InstructModel_complete self input w = Some (out, w')
    ∧ (read_stop_sequences w' input = read_stop_sequences w input
       ↔ ∃ xs, v = Some xs ∧ EOT_TOKEN ∈ xs).
Proof.
  intros Hv.
  destruct (read_stop_sequences_inv _ _ _ Hv) as (f & Hf & _).
  destruct (Llama3InstructModel_complete_spec self w input f v Hf Hv)
    as (w' & Hrun & _ & _ & Hread).
  eexists _, w'. split; [exact Hrun|].
  rewrite Hread, Hv, <-shaped_stop_sequences_unchanged.
  split; congruence.
Qed.

(** *** Statements about [Llama3InstructModel] *)

(** C4 (as amended).  [Llama3InstructModel.complete] sends one request
    whose stop sequences are those of the input with the end-of-turn
    marker appended unless present.  For an input whose list is empty
    the request carries exactly [[EOT_TOKEN]]; for an input whose list
    already contains the marker the request carries the input's list as
    it is, so the marker occurs in it as often as in the input. *)
Theorem llama3_request_stop_sequences self w input v :
  read_stop_sequences w input = Some v →
  ∃ out w' request,
    Llama3InstructModel_complete self input w = Some (out, w')
    ∧ requests w' = requests w ++ [request]
    ∧ sent_stop_sequences request = Some (shaped_stop_sequences v)
    ∧ (v = Some [] → sent_stop_sequences request = Some [EOT_TOKEN])
    ∧ (∀ xs, v = Some xs → EOT_TOKEN ∈ xs →
             sent_stop_sequences request = Some xs).
Proof.
  intros Hv.
  destruct (read_stop_sequences_inv _ _ _ Hv) as (f & Hf & _).
  destruct (Llama3InstructModel_complete_spec self w input f v Hf Hv)
    as (w' & Hrun & Hreq & _ & _).
  eexists _, w', _. split_and!; [exact Hrun|exact Hreq|done|..].
  - by intros ->.
  - intros xs -> Heot. simpl. by rewrite bool_decide_eq_true_2.
Qed.

(** *** Statements about [AlephAlphaModel] *)

Lemma nth_context_size_memo self k memo :
  (∀ n, memo = Some n → context_size self = Return n) →
  nth_context_size self k memo = context_size self.
Proof.
  revert memo. induction k as [|k IH]; intros memo Hmemo; simpl.
  - destruct memo as [n|]; simpl; [by rewrite (Hmemo n)|].
    by destruct (context_size self).
  - apply IH. intros n. destruct memo as [m|]; simpl.
    + intros [= <-]. by apply Hmemo.
    + destruct (context_size self); simpl; [by intros [= <-]|done].
Qed.

(** A read that finds no memoised value raises also when the first entry
    with the model's name carries [None] as its [max_context_size]. *)
Lemma context_size_entry_without_size self pre info post :
  client_models (_client self) = pre ++ info :: post →
  ModelInfo.name info = name self →
  Forall (λ i, ModelInfo.name i ≠ name self) pre →
  ModelInfo.max_context_size info = None →
  read_context_size self None
  = (Raise (ValueError ("No matching model found for name " +:+ name self)),
     None).
Proof.
  intros Hreg Hname Hpre Hsize. unfold read_context_size, context_size.
  by rewrite Hreg, (next_with_key_first _ _ _ _ _ Hpre Hname); simpl;
    rewrite Hsize.
Qed.

(** C10 (as amended).  A read of [context_size] that finds no memoised
    value for the object queries the client's registry: it raises a
    [ValueError] when no entry carries the model's name and memoises
    nothing, and it returns the [max_context_size] of the first entry with
    that name when that value is an integer, and memoises it; it raises
    only when no entry carries the name or the first entry with the name
    carries no integer.  A read that finds a memoised value returns it
    without consulting the registry. *)
Theorem context_size_registry self (memo : option Z) :
  (memo = None →
   (Forall (λ info, ModelInfo.name info ≠ name self)
      (client_models (_client self)) →
    ∃ msg, read_context_size self memo = (Raise (ValueError msg), None))
   ∧ (∀ pre info post n,
        client_models (_client self) = pre ++ info :: post →
        ModelInfo.name info = name self →
        Forall (λ i, ModelInfo.name i ≠ name self) pre →
        ModelInfo.max_context_size info = Some n →
        read_context_size self memo = (Return n, Some n))
   ∧ (∀ err,
        (read_context_size self memo).1 = Raise err →
        Forall (λ info, ModelInfo.name info ≠ name self)
          (client_models (_client self))
        ∨ ∃ pre info post,
            client_models (_client self) = pre ++ info :: post
            ∧ ModelInfo.name info = name self
            ∧ Forall (λ i, ModelInfo.name i ≠ name self) pre
            ∧ ModelInfo.max_context_size info = None))
  ∧ (∀ n, memo = Some n → read_context_size self memo = (Return n, Some n)).
Proof.
  split.
  - intros ->. unfold read_context_size, context_size. split_and!.
    + intros Hnone%next_with_key_None. rewrite Hnone. simpl. eauto.
    + intros pre info post n Hreg Hname Hpre Hsize.
      rewrite Hreg, (next_with_key_first _ _ _ _ _ Hpre Hname). simpl.
      by rewrite Hsize.
    + intros err.
      destruct (next_with_key ModelInfo.name (name self)
                  (client_models (_client self))) as [info|] eqn:Hnext; simpl.
      * apply next_with_key_Some in Hnext
          as (pre & post & Hreg & Hname & Hpre).
        destruct (ModelInfo.max_context_size info) as [n|] eqn:Hsize;
          simpl; [done|].
        intros _. right. by exists pre, info, post.
      * intros _. left. by apply next_with_key_None.
  - by intros n ->.
Qed.
End facts.

(** *** The statements at concrete worlds *)

Import Fixtures.

Lemma llama3_request_stop_sequences_witness :
  ∃ out w' request,
    Llama3InstructModel_complete llama3 1%positive (world_with_input [])
    = Some (out, w')
    ∧ requests w' = [request]
    ∧ sent_stop_sequences request = Some [EOT_TOKEN].
Proof.
  destruct (llama3_request_stop_sequences llama3 (world_with_input [])
              1%positive (Some []) eq_refl)
    as (out & w' & request & Hrun & Hreq & _ & Hempty & _).
  exists out, w', request.
  split_and!; [exact Hrun|exact Hreq|exact (Hempty eq_refl)].
Defined.

(** C4 as first stated fails in its second part: an input whose list holds
    the marker twice is sent on with the marker twice. *)
Lemma llama3_marker_sent_twice :
  requests <$>
    (snd <$> Llama3InstructModel_complete llama3 1%positive
               (world_with_input [EOT_TOKEN; EOT_TOKEN]))
  = Some [Sent (Some [EOT_TOKEN; EOT_TOKEN]) () "llama-3-8b-instruct"]
  ∧ length (filter (λ s, s = EOT_TOKEN) [EOT_TOKEN; EOT_TOKEN]) = 2.
Proof. split; by vm_compute. Qed.

(** C5 fails on the code: [complete] changes the input it is given.  An
    input whose list is empty holds the marker afterwards, and an input
    without stop sequences holds the list [[EOT_TOKEN]] afterwards. *)
Theorem llama3_complete_changes_input :
  read_stop_sequences (world_with_input []) 1%positive = Some (Some [])
  ∧ (λ w', read_stop_sequences w' 1%positive) <$>
      (snd <$> Llama3InstructModel_complete llama3 1%positive
                 (world_with_input []))
    = Some (Some (Some [EOT_TOKEN]))
  ∧ read_stop_sequences world_with_input_None 1%positive = Some None
  ∧ (λ w', read_stop_sequences w' 1%positive) <$>
      (snd <$> Llama3InstructModel_complete llama3 1%positive
                 world_with_input_None)
    = Some (Some (Some [EOT_TOKEN])).
Proof. split_and!; by vm_compute. Qed.

Example context_size_examples :
  context_size llama3 = Return 8192%Z
  ∧ context_size unknown_model
    = Raise (ValueError "No matching model found for name no-such-model")
  ∧ nth_context_size llama3 3 None = Return 8192%Z.
Proof. by vm_compute. Qed.

Lemma context_size_registry_witness :
  read_context_size llama3 None = (Return 8192%Z, Some 8192%Z)
  ∧ (∃ msg, read_context_size unknown_model None = (Raise (ValueError msg), None))
  ∧ read_context_size llama3_deregistered (Some 8192%Z)
    = (Return 8192%Z, Some 8192%Z).
Proof.
  split_and!.
  - apply (proj1 (proj2 (proj1 (context_size_registry llama3 None) eq_refl))
             [ModelInfo.mk "luminous-base-control" (Some 2048%Z)]
             (ModelInfo.mk "llama-3-8b-instruct" (Some 8192%Z)) [] 8192%Z).
    + reflexivity.
    + reflexivity.
    + repeat constructor. discriminate.
    + reflexivity.
  - apply (proj1 (proj1 (context_size_registry unknown_model None) eq_refl)).
    repeat constructor; discriminate.
  - apply (proj2 (context_size_registry llama3_deregistered (Some 8192%Z))).
    reflexivity.
Defined.

(** C10 as first stated fails.  After a read of [llama3] has returned, a
    read of the same model returns the memoised value although the
    registry, by then empty, no longer has its name.  And a read raises
    although the registry has an entry with the model's name, when that
    entry carries [None] as its [max_context_size]. *)
Lemma context_size_not_decided_by_registry :
  read_context_size llama3 None = (Return 8192%Z, Some 8192%Z)
  ∧ client_models (_client llama3_deregistered) = []
  ∧ read_context_size llama3_deregistered (Some 8192%Z)
    = (Return 8192%Z, Some 8192%Z)
  ∧ client_models (_client model_without_size)
    = [ModelInfo.mk (name model_without_size) None]
  ∧ read_context_size model_without_size None
    = (Raise (ValueError "No matching model found for name preview-model"),
       None).
Proof. split_and!; by vm_compute. Qed.
End ModelFacts.


(** ** Further properties of the in-memory repository *)

Module RepositoryExtras.
Import Py PyFacts InMemoryEvaluationRepository RepositoryFacts History.

Section facts.
Context {Evaluation Meta : Type}.
Implicit Types (self : t Evaluation Meta) (id : string).
Implicit Types (o : EvaluationOverview.t Meta).
Implicit Types (e : ExampleEvaluation.t Evaluation).
Implicit Types (c : call Evaluation Meta) (cs : list (call Evaluation Meta)).

Lemma next_with_key_head_filter {A} (key : A → string) k (l : list A) :
  next_with_key key k l = head (filter (λ x, key x = k) l).
Proof.
  unfold next_with_key, str_eq.
  induction l as [|x l IH]; simpl; [done|].
  rewrite filter_cons.
  destruct (String.eqb_spec (key x) k) as [Hx|Hx].
  - by rewrite decide_True.
  - by rewrite decide_False.
Qed.

(** X1.  After any sequence of calls on a new repository, every id listed
    by [evaluation_overview_ids()] is a key of the result store:
    [example_evaluations] returns for it, and what it returns are the
    example evaluations the calls stored under that id. *)
Theorem stored_overview_has_results {T} cs id (ty : T) :
  id ∈ evaluation_overview_ids (execs __init__ cs) →
  ∃ results,
    example_evaluations (execs __init__ cs) id ty = Return results
    ∧ results ≡ₚ evaluations_under id cs.
Proof.
  rewrite evaluation_overview_ids_elem_of, execs_overview_ids.
  intros (o & Ho & Hid).
  assert (Exists (λ c, registers c = id) cs) as Hreg.
  { apply Exists_exists. by exists (StoreEvaluationOverview o). }
  eexists. split; [by apply example_evaluations_execs|].
  apply sorted_Permutation.
Qed.

(** X2.  For a registered id, [example_evaluations] returns all results
    stored under it, none lost and none merged, in ascending order of
    example id; results with the same example id keep the order in which
    they were stored. *)
Theorem example_evaluations_all_sorted_stable {T} self id l (ty : T) :
  _example_evaluations self !! id = Some l →
  ∃ results,
    example_evaluations self id ty = Return results
    ∧ results ≡ₚ l
    ∧ StronglySorted (key_le ExampleEvaluation.example_id) results
    ∧ ∀ example_id,
        filter (λ e, ExampleEvaluation.example_id e = example_id) results
        = filter (λ e, ExampleEvaluation.example_id e = example_id) l.
Proof.
  intros Hl. eexists. split_and!.
  - by apply example_evaluations_registered.
  - apply sorted_Permutation.
  - apply sorted_StronglySorted.
  - intros x. apply sorted_stable.
Qed.

(** X3.  Among several results stored with the same example id under a
    registered overview id, [example_evaluation] returns the one stored
    first. *)
Theorem example_evaluation_earliest_stored {T} self id example_id l (ty : T) :
  _example_evaluations self !! id = Some l →
  example_evaluation self id example_id ty
  = Return (head (filter (λ e, ExampleEvaluation.example_id e = example_id) l)).
Proof.
  intros Hl. unfold example_evaluation.
  rewrite (example_evaluations_registered _ _ _ _ Hl).
  by rewrite next_with_key_head_filter, sorted_stable.
Qed.

(** X4.  [store_example_evaluation] never replaces: under an id that
    [example_evaluations] lists, the listing afterwards holds the new
    result and all earlier ones, one element more, also when a result with
    the same example id was already stored. *)
Theorem store_example_evaluation_appends {T} self e (ty : T) results :
  example_evaluations self (ExampleEvaluation.evaluation_id e) ty
  = Return results →
  ∃ results',
    example_evaluations (store_example_evaluation self e)
      (ExampleEvaluation.evaluation_id e) ty = Return results'
    ∧ results' ≡ₚ e :: results
    ∧ length results' = S (length results).
Proof.
  intros Hrun.
  destruct (_example_evaluations self !! ExampleEvaluation.evaluation_id e)
    as [l|] eqn:Hl; last first.
  { by rewrite example_evaluations_unregistered in Hrun. }
  rewrite (example_evaluations_registered _ _ _ _ Hl) in Hrun.
  injection Hrun as <-.
  assert (sorted ExampleEvaluation.example_id (l ++ [e])
          ≡ₚ e :: sorted ExampleEvaluation.example_id l) as Hp.
  { rewrite !sorted_Permutation. by rewrite Permutation_app_comm. }
  eexists. split_and!.
  - apply example_evaluations_registered.
    rewrite results_store_example_evaluation, decide_True by done.
    unfold stored_results. by rewrite Hl.
  - done.
  - by rewrite Hp.
Qed.

(** X5.  [store_example_evaluation(e)] touches nothing but the results
    of [e]'s overview id: the listing and the point lookup of every other
    id, every overview and the list of overview ids are as before. *)
Theorem store_example_evaluation_frame {T} self e id example_id (ty : T) :
  id ≠ ExampleEvaluation.evaluation_id e →
  example_evaluations (store_example_evaluation self e) id ty
  = example_evaluations self id ty
  ∧ example_evaluation (store_example_evaluation self e) id example_id ty
    = example_evaluation self id example_id ty
  ∧ (∀ id', evaluation_overview (store_example_evaluation self e) id'
            = evaluation_overview self id')
  ∧ evaluation_overview_ids (store_example_evaluation self e)
    = evaluation_overview_ids self.
Proof.
  intros Hne.
  assert (example_evaluations (store_example_evaluation self e) id ty
          = example_evaluations self id ty) as Hsame.
  { pose proof (results_store_example_evaluation self e id) as Hr.
    rewrite decide_False in Hr by done.
    destruct (_example_evaluations self !! id) as [l|] eqn:Hl.
    - by rewrite !(example_evaluations_registered _ _ _ l).
    - by rewrite !example_evaluations_unregistered. }
  split_and!.
  - done.
  - unfold example_evaluation. by rewrite Hsame.
  - intros id'. unfold evaluation_overview.
    by rewrite overviews_store_example_evaluation.
  - unfold evaluation_overview_ids.
    by rewrite overviews_store_example_evaluation.
Qed.

(** X6.  [store_evaluation_overview(o)] never resets or removes results:
    the listing of every id other than [o.id], and of [o.id] itself when it
    is already a key of the result store, is as before; so is the overview
    of every other id. *)
Theorem store_evaluation_overview_frame {T} self o id (ty : T) :
  id ≠ EvaluationOverview.id o ∨ is_Some (_example_evaluations self !! id) →
  example_evaluations (store_evaluation_overview self o) id ty
  = example_evaluations self id ty
  ∧ (id ≠ EvaluationOverview.id o →
     evaluation_overview (store_evaluation_overview self o) id
     = evaluation_overview self id).
Proof.
  intros Hid. split.
  - pose proof (results_store_evaluation_overview self o id) as Hr.
    destruct (_example_evaluations self !! id) as [l|] eqn:Hl.
    + rewrite !(example_evaluations_registered _ _ _ l); [done..|].
      rewrite Hr. case_decide; [|done].
      unfold stored_results. by rewrite Hl.
    + destruct Hid as [Hne|[? [=]]].
      rewrite decide_False in Hr by done.
      by rewrite !example_evaluations_unregistered.
  - intros Hne. unfold evaluation_overview.
    by rewrite overviews_store_evaluation_overview, lookup_insert_ne.
Qed.

Lemma stored_results_store_evaluation_overview self o id :
  stored_results (store_evaluation_overview self o) id = stored_results self id.
Proof.
  pose proof (stored_results_exec self (StoreEvaluationOverview o) id) as H.
  simpl in H. by rewrite app_nil_r in H.
Qed.

Lemma stored_results_store_example_evaluation self e id :
  stored_results (store_example_evaluation self e) id
  = stored_results self id
    ++ (if decide (ExampleEvaluation.evaluation_id e = id) then [e] else []).
Proof.
  pose proof (stored_results_exec self (StoreExampleEvaluation e) id) as H.
  simpl in H. rewrite H. unfold evaluations_under. simpl. by case_decide.
Qed.

Lemma store_overview_example_commute self o e :
  store_example_evaluation (store_evaluation_overview self o) e
  = store_evaluation_overview (store_example_evaluation self e) o.
Proof.
  apply repository_eq.
  - apply map_eq. intros k.
    rewrite results_store_example_evaluation, !results_store_evaluation_overview,
      results_store_example_evaluation, stored_results_store_evaluation_overview,
      stored_results_store_example_evaluation.
    destruct (decide (k = ExampleEvaluation.evaluation_id e)) as [->|Hne].
    + case_decide; [|done]. by rewrite decide_True.
    + case_decide; [|done]. rewrite decide_False by congruence.
      by rewrite app_nil_r.
  - by rewrite overviews_store_example_evaluation,
         !overviews_store_evaluation_overview,
         overviews_store_example_evaluation.
Qed.

(** X7.  Storing an overview and storing an example evaluation commute,
    also under the same id: the repository ends in the same state whichever
    comes first. *)
Theorem store_overview_and_example_any_order self o e :
  store_example_evaluation (store_evaluation_overview self o) e
  = store_evaluation_overview (store_example_evaluation self e) o.
Proof. apply store_overview_example_commute. Qed.

(** X8.  Two writing calls for different overview ids commute. *)
Theorem exec_commute_different_ids self c1 c2 :
  registers c1 ≠ registers c2 →
  exec (exec self c1) c2 = exec (exec self c2) c1.
Proof.
  intros Hne. destruct c1 as [o1|e1], c2 as [o2|e2]; simpl in *.
  - apply repository_eq.
    + apply map_eq. intros k.
      rewrite !results_store_evaluation_overview,
        !stored_results_store_evaluation_overview.
      repeat case_decide; congruence.
    + rewrite !overviews_store_evaluation_overview.
      by apply insert_insert_ne.
  - apply store_overview_example_commute.
  - symmetry. apply store_overview_example_commute.
  - apply repository_eq.
    + apply map_eq. intros k.
      rewrite !results_store_example_evaluation,
        !stored_results_store_example_evaluation.
      repeat case_decide; try congruence; by rewrite ?app_nil_r.
    + by rewrite !overviews_store_example_evaluation.
Qed.

(** X9.  [store_evaluation_overview(o)] leaves [evaluation_overview_ids()]
    as it is when an overview is already stored under [o.id], and otherwise
    inserts [o.id] at its place in the sorted sequence. *)
Theorem evaluation_overview_ids_store self o :
  evaluation_overview_ids (store_evaluation_overview self o)
  = if decide (is_Some (evaluation_overview self (EvaluationOverview.id o)))
    then evaluation_overview_ids self
    else insort (λ s, s) (EvaluationOverview.id o) (evaluation_overview_ids self).
Proof.
  unfold evaluation_overview_ids, evaluation_overview.
  rewrite overviews_store_evaluation_overview.
  case_decide as Hstored.
  - apply sorted_Permutation_id; [apply NoDup_keys|].
    apply NoDup_Permutation; [apply NoDup_keys..|].
    intros k. rewrite !elem_of_keys, lookup_insert.
    case_decide; [subst; by split|done].
  - apply eq_None_not_Some in Hstored.
    change (insort (λ s, s) (EvaluationOverview.id o)
              (sorted (λ s, s) (keys (_evaluation_overviews self))))
      with (sorted (λ s, s)
              (EvaluationOverview.id o :: keys (_evaluation_overviews self))).
    apply sorted_Permutation_id; [apply NoDup_keys|].
    unfold keys. by rewrite map_to_list_insert.
Qed.

Lemma evaluation_overview_execs self cs id :
  evaluation_overview (execs self cs) id
  = match last (overviews_under id cs) with
    | Some o => Some o
    | None => evaluation_overview self id
    end.
Proof.
  unfold evaluation_overview. revert self.
  induction cs as [|c cs IH]; intros self; simpl; [done|].
  rewrite IH. destruct c as [o|e]; simpl.
  - rewrite overviews_store_evaluation_overview, lookup_insert.
    unfold overviews_under. simpl. case_decide as Ho; simpl; [|done].
    rewrite last_cons. by destruct (last _).
  - by rewrite overviews_store_example_evaluation.
Qed.

(** X10.  After any sequence of calls on a new repository,
    [evaluation_overview(id)] returns the overview most recently stored
    under [id], and [None] when none was stored. *)
Theorem evaluation_overview_last_stored cs id :
  evaluation_overview (execs (@__init__ Evaluation Meta) cs) id
  = last (overviews_under id cs).
Proof.
  rewrite evaluation_overview_execs.
  unfold evaluation_overview. simpl. rewrite lookup_empty.
  by destruct (last _).
Qed.

(** X11.  For an overview id that no call has registered,
    [example_evaluation] raises the not-found error of
    [example_evaluations]; it does not return [None]. *)
Theorem example_evaluation_unknown_id_raises {T} cs id example_id (ty : T) :
  Forall (λ c, registers c ≠ id) cs →
  example_evaluation (execs __init__ cs) id example_id ty
  = Raise (not_found id).
Proof.
  intros Hcs. destruct (execs_other __init__ cs id Hcs) as [Hr _].
  unfold example_evaluation.
  rewrite example_evaluations_unregistered; [done|by rewrite Hr].
Qed.
End facts.

(** *** The statements at concrete repositories *)

Import Fixtures.

Lemma stored_overview_has_results_witness :
  ∃ results,
    example_evaluations
      (execs empty_repository
         [StoreExampleEvaluation (evaluation "run" "b" 2);
          StoreEvaluationOverview (overview "run")])
      "run" ()
    = Return results
    ∧ results ≡ₚ [evaluation "run" "b" 2].
Proof.
  apply (stored_overview_has_results
           [StoreExampleEvaluation (evaluation "run" "b" 2);
            StoreEvaluationOverview (overview "run")] "run" ()).
  vm_compute. left.
Defined.

Lemma example_evaluations_all_sorted_stable_witness :
  ∃ results,
    example_evaluations
      (execs empty_repository
         [StoreExampleEvaluation (evaluation "run" "b" 2);
          StoreExampleEvaluation (evaluation "run" "a" 1);
          StoreExampleEvaluation (evaluation "run" "b" 3)])
      "run" ()
    = Return results
    ∧ results ≡ₚ [evaluation "run" "b" 2; evaluation "run" "a" 1;
                  evaluation "run" "b" 3]
    ∧ StronglySorted (key_le ExampleEvaluation.example_id) results
    ∧ ∀ example_id,
        filter (λ e, ExampleEvaluation.example_id e = example_id) results
        = filter (λ e, ExampleEvaluation.example_id e = example_id)
            [evaluation "run" "b" 2; evaluation "run" "a" 1;
             evaluation "run" "b" 3].
Proof.
  apply (example_evaluations_all_sorted_stable
           (execs empty_repository
              [StoreExampleEvaluation (evaluation "run" "b" 2);
               StoreExampleEvaluation (evaluation "run" "a" 1);
               StoreExampleEvaluation (evaluation "run" "b" 3)])
           "run" _ ()).
  reflexivity.
Defined.

Lemma example_evaluation_earliest_stored_witness :
  example_evaluation
    (execs empty_repository
       [StoreExampleEvaluation (evaluation "run" "b" 2);
        StoreExampleEvaluation (evaluation "run" "a" 1);
        StoreExampleEvaluation (evaluation "run" "b" 3)])
    "run" "b" ()
  = Return (Some (evaluation "run" "b" 2)).
Proof.
  apply (example_evaluation_earliest_stored
           (execs empty_repository
              [StoreExampleEvaluation (evaluation "run" "b" 2);
               StoreExampleEvaluation (evaluation "run" "a" 1);
               StoreExampleEvaluation (evaluation "run" "b" 3)])
           "run" "b"
           [evaluation "run" "b" 2; evaluation "run" "a" 1;
            evaluation "run" "b" 3] ()).
  reflexivity.
Defined.

Lemma store_example_evaluation_appends_witness :
  ∃ results',
    example_evaluations
      (store_example_evaluation
         (execs empty_repository
            [StoreExampleEvaluation (evaluation "run" "a" 1)])
         (evaluation "run" "a" 2))
      "run" ()
    = Return results'
    ∧ results' ≡ₚ [evaluation "run" "a" 2; evaluation "run" "a" 1]
    ∧ length results' = 2.
Proof.
  apply (store_example_evaluation_appends
           (execs empty_repository
              [StoreExampleEvaluation (evaluation "run" "a" 1)])
           (evaluation "run" "a" 2) () [evaluation "run" "a" 1]).
  reflexivity.
Defined.

Lemma store_example_evaluation_frame_witness :
  example_evaluations
    (store_example_evaluation
       (execs empty_repository [StoreEvaluationOverview (overview "a")])
       (evaluation "b" "x" 1))
    "a" ()
  = Return []
  ∧ evaluation_overview_ids
      (store_example_evaluation
         (execs empty_repository [StoreEvaluationOverview (overview "a")])
         (evaluation "b" "x" 1))
    = ["a"].
Proof.
  assert ("a" ≠ ExampleEvaluation.evaluation_id (evaluation "b" "x" 1)) as Hne
    by discriminate.
  destruct (store_example_evaluation_frame
              (execs empty_repository [StoreEvaluationOverview (overview "a")])
              (evaluation "b" "x" 1) "a" "x" () Hne)
    as (Hlist & _ & _ & Hids).
  split; [exact Hlist|exact Hids].
Defined.

Lemma store_evaluation_overview_frame_witness :
  example_evaluations
    (store_evaluation_overview
       (execs empty_repository
          [StoreExampleEvaluation (evaluation "run" "a" 1)])
       (overview "run"))
    "run" ()
  = Return [evaluation "run" "a" 1].
Proof.
  assert (is_Some
            (_example_evaluations
               (execs empty_repository
                  [StoreExampleEvaluation (evaluation "run" "a" 1)])
               !! "run")) as Hreg by (vm_compute; eauto).
  destruct (store_evaluation_overview_frame
              (execs empty_repository
                 [StoreExampleEvaluation (evaluation "run" "a" 1)])
              (overview "run") "run" () (or_intror Hreg))
    as [Hlist _].
  exact Hlist.
Defined.

Lemma exec_commute_different_ids_witness :
  exec (exec empty_repository (StoreEvaluationOverview (overview "a")))
    (StoreEvaluationOverview (overview "b"))
  = exec (exec empty_repository (StoreEvaluationOverview (overview "b")))
      (StoreEvaluationOverview (overview "a")).
Proof.
  apply (exec_commute_different_ids empty_repository
           (StoreEvaluationOverview (overview "a"))
           (StoreEvaluationOverview (overview "b"))).
  discriminate.
Defined.

Lemma example_evaluation_unknown_id_raises_witness :
  example_evaluation
    (execs empty_repository [StoreEvaluationOverview (overview "a")])
    "b" "x" ()
  = Raise (not_found "b").
Proof.
  apply (example_evaluation_unknown_id_raises
           [StoreEvaluationOverview (overview "a")] "b" "x" ()).
  repeat constructor. discriminate.
Defined.
End RepositoryExtras.

(** ** Further properties of the asynchronous repository *)

Module AsyncRepositoryExtras.
Import Py PyFacts AsyncInMemoryEvaluationRepository.
Import RepositoryFacts AsyncRepositoryFacts Invariants.

Section facts.
Context {Evaluation Meta PartialMeta : Type}.
Implicit Types (self : t Evaluation Meta PartialMeta) (id : string).
Implicit Types (p : PartialEvaluationOverview.t PartialMeta).
Implicit Types (o : EvaluationOverview.t Meta).
Implicit Types (e : ExampleEvaluation.t Evaluation).
Implicit Types (c : call Evaluation Meta PartialMeta).
Implicit Types (cs : list (call Evaluation Meta PartialMeta)).

Lemma async_repository_eq self1 self2 :
  base self1 = base self2 →
  _partial_evaluation_overviews self1 = _partial_evaluation_overviews self2 →
  self1 = self2.
Proof. destruct self1, self2; simpl; congruence. Qed.

Lemma overviews_store_partial_evaluation_overview self p :
  Base._evaluation_overviews (base (store_partial_evaluation_overview self p))
  = Base._evaluation_overviews (base self).
Proof. unfold store_partial_evaluation_overview. by destruct (negb _). Qed.

Lemma stored_results_store_partial_evaluation_overview self p id :
  Base.stored_results (base (store_partial_evaluation_overview self p)) id
  = Base.stored_results (base self) id.
Proof.
  unfold Base.stored_results at 1.
  rewrite results_store_partial_evaluation_overview. by case_decide.
Qed.

(** The sorted listing of the keys of a dict of overviews. *)
Lemma sorted_keys_spec {V} (d : gmap string V) :
  StronglySorted (λ a b, str_lt a b = true) (sorted (λ s, s) (keys d))
  ∧ NoDup (sorted (λ s, s) (keys d))
  ∧ ∀ id, id ∈ sorted (λ s, s) (keys d) ↔ is_Some (d !! id).
Proof.
  split_and!.
  - apply (sorted_StronglySorted_lt (λ s, s)).
    rewrite list_fmap_id. apply NoDup_keys.
  - rewrite sorted_Permutation. apply NoDup_keys.
  - intros id. by rewrite sorted_elem_of, elem_of_keys.
Qed.

(** X12.  Partial and final overviews live in separate id spaces:
    [store_partial_evaluation_overview(p)] makes [p] the partial overview
    of [p.id] and changes no other partial overview, no final overview and
    not the list of final overview ids; storing a final overview or an
    example evaluation changes no partial overview and not the list of
    partial overview ids. *)
Theorem partial_overviews_separate self p o e id :
  partial_evaluation_overview (store_partial_evaluation_overview self p) id
  = (if decide (id = PartialEvaluationOverview.id p) then Some p
     else partial_evaluation_overview self id)
  ∧ evaluation_overview (store_partial_evaluation_overview self p) id
    = evaluation_overview self id
  ∧ evaluation_overview_ids (store_partial_evaluation_overview self p)
    = evaluation_overview_ids self
  ∧ partial_evaluation_overview (store_evaluation_overview self o) id
    = partial_evaluation_overview self id
  ∧ partial_evaluation_overview_ids (store_evaluation_overview self o)
    = partial_evaluation_overview_ids self
  ∧ partial_evaluation_overview (store_example_evaluation self e) id
    = partial_evaluation_overview self id
  ∧ partial_evaluation_overview_ids (store_example_evaluation self e)
    = partial_evaluation_overview_ids self.
Proof.
  split_and!; try done.
  - unfold partial_evaluation_overview.
    rewrite partials_store_partial_evaluation_overview, lookup_insert.
    repeat case_decide; congruence.
  - unfold evaluation_overview, Base.evaluation_overview.
    by rewrite overviews_store_partial_evaluation_overview.
  - unfold evaluation_overview_ids, Base.evaluation_overview_ids.
    by rewrite overviews_store_partial_evaluation_overview.
Qed.

Lemma store_partial_evaluation_overview_last_wins self p p' :
  PartialEvaluationOverview.id p' = PartialEvaluationOverview.id p →
  store_partial_evaluation_overview (store_partial_evaluation_overview self p') p
  = store_partial_evaluation_overview self p.
Proof.
  intros Hid. apply async_repository_eq.
  - apply repository_eq.
    + apply map_eq. intros k.
      rewrite !results_store_partial_evaluation_overview,
        stored_results_store_partial_evaluation_overview.
      case_decide; [done|]. by rewrite Hid, decide_False.
    + by rewrite !overviews_store_partial_evaluation_overview.
  - rewrite !partials_store_partial_evaluation_overview, Hid.
    apply insert_insert_eq.
Qed.

(** X13.  [store_partial_evaluation_overview] is an idempotent upsert:
    storing [p] after any partial overviews with the same id gives the
    state of storing [p] alone.  [partial_evaluation_overview_ids()] is
    always strictly ascending in the order of [str], has no duplicates and
    holds exactly the ids that have a partial overview. *)
Theorem store_partial_evaluation_overview_upsert self p :
  (∀ ps,
     Forall (λ p', PartialEvaluationOverview.id p'
                   = PartialEvaluationOverview.id p) ps →
     foldl store_partial_evaluation_overview self (ps ++ [p])
     = store_partial_evaluation_overview self p)
  ∧ StronglySorted (λ a b, str_lt a b = true)
      (partial_evaluation_overview_ids self)
  ∧ NoDup (partial_evaluation_overview_ids self)
  ∧ (∀ id, id ∈ partial_evaluation_overview_ids self
           ↔ is_Some (partial_evaluation_overview self id)).
Proof.
  split; [|apply sorted_keys_spec].
  intros ps Hps. revert self.
  induction Hps as [|p' ps Hp' _ IH]; intros self; simpl; [done|].
  rewrite IH. by apply store_partial_evaluation_overview_last_wins.
Qed.

(** X14.  [store_partial_evaluation_overview(p)] never resets or removes
    results: the listing of every id other than [p.id], and of [p.id]
    itself when it is already a key of the result store, is as before. *)
Theorem store_partial_evaluation_overview_frame {T} self p id (ty : T) :
  id ≠ PartialEvaluationOverview.id p
  ∨ is_Some (Base._example_evaluations (base self) !! id) →
  example_evaluations (store_partial_evaluation_overview self p) id ty
  = example_evaluations self id ty.
Proof.
  intros Hid. unfold example_evaluations.
  pose proof (results_store_partial_evaluation_overview self p id) as Hr.
  destruct (Base._example_evaluations (base self) !! id) as [l|] eqn:Hl.
  - rewrite !(example_evaluations_registered _ _ _ l); [done..|].
    rewrite Hr. case_decide; [|done].
    unfold Base.stored_results. by rewrite Hl.
  - destruct Hid as [Hne|[? [=]]].
    rewrite decide_False in Hr by done.
    by rewrite !example_evaluations_unregistered.
Qed.

(** X15.  [store_partial_evaluation_overview] commutes with each of the
    inherited writing calls, also under the same id. *)
Theorem store_partial_commutes self p (c : Base.call Evaluation Meta) :
  exec (exec self (StorePartialEvaluationOverview p)) (Inherited c)
  = exec (exec self (Inherited c)) (StorePartialEvaluationOverview p).
Proof.
  destruct c as [o|e]; simpl; apply async_repository_eq.
  - apply repository_eq.
    + apply map_eq. intros k. simpl.
      rewrite results_store_evaluation_overview,
        !results_store_partial_evaluation_overview,
        stored_results_store_partial_evaluation_overview. simpl.
      rewrite results_store_evaluation_overview,
        RepositoryExtras.stored_results_store_evaluation_overview.
      by repeat case_decide.
    + simpl.
      by repeat first
        [ rewrite overviews_store_partial_evaluation_overview
        | rewrite overviews_store_evaluation_overview
        | progress simpl ].
  - simpl. by rewrite !partials_store_partial_evaluation_overview.
  - apply repository_eq.
    + apply map_eq. intros k. simpl.
      rewrite results_store_example_evaluation,
        !results_store_partial_evaluation_overview,
        stored_results_store_partial_evaluation_overview. simpl.
      rewrite results_store_example_evaluation,
        RepositoryExtras.stored_results_store_example_evaluation.
      destruct (decide (k = ExampleEvaluation.evaluation_id e)) as [->|Hne].
      * case_decide; [|done]. by rewrite decide_True.
      * case_decide; [|done]. rewrite decide_False by congruence.
        by rewrite app_nil_r.
    + simpl.
      by repeat first
        [ rewrite overviews_store_partial_evaluation_overview
        | rewrite overviews_store_example_evaluation
        | progress simpl ].
  - simpl. by rewrite !partials_store_partial_evaluation_overview.
Qed.

Lemma overviews_registered_init :
  overviews_registered (@__init__ Evaluation Meta PartialMeta).
Proof.
  intros id. unfold evaluation_overview, Base.evaluation_overview,
    partial_evaluation_overview. simpl. rewrite !lookup_empty.
  by intros [[? [=]]|[? [=]]].
Qed.

Lemma overviews_registered_exec self c :
  overviews_registered self → overviews_registered (exec self c).
Proof.
  intros Hinv id.
  unfold evaluation_overview, Base.evaluation_overview,
    partial_evaluation_overview.
  destruct c as [[o|e]|p]; simpl.
  - rewrite overviews_store_evaluation_overview,
      results_store_evaluation_overview, lookup_insert.
    destruct (decide (id = EvaluationOverview.id o)) as [->|Hne]; [by eauto|].
    rewrite decide_False by congruence. apply Hinv.
  - rewrite overviews_store_example_evaluation,
      results_store_example_evaluation.
    case_decide; [by eauto|]. apply Hinv.
  - rewrite overviews_store_partial_evaluation_overview,
      results_store_partial_evaluation_overview,
      partials_store_partial_evaluation_overview, lookup_insert.
    destruct (decide (id = PartialEvaluationOverview.id p)) as [->|Hne];
      [by eauto|].
    rewrite decide_False by congruence. apply Hinv.
Qed.

Lemma overviews_registered_execs self cs :
  overviews_registered self → overviews_registered (execs self cs).
Proof.
  revert self. induction cs as [|c cs IH]; intros self Hinv; simpl; [done|].
  apply IH. by apply overviews_registered_exec.
Qed.

(** X16.  After any sequence of calls on a new asynchronous repository,
    [example_evaluations] does not raise for any id listed by
    [evaluation_overview_ids()] or by [partial_evaluation_overview_ids()]. *)
Theorem listed_ids_have_results {T} cs id (ty : T) :
  id ∈ evaluation_overview_ids (execs __init__ cs)
  ∨ id ∈ partial_evaluation_overview_ids (execs __init__ cs) →
  ∃ results, example_evaluations (execs __init__ cs) id ty = Return results.
Proof.
  intros Hid.
  destruct (overviews_registered_execs __init__ cs
              overviews_registered_init id) as [l Hl].
  - destruct Hid as [Hid|Hid]; [left|right].
    + by apply evaluation_overview_ids_elem_of in Hid.
    + by apply sorted_keys_spec in Hid.
  - eexists. unfold example_evaluations.
    by apply example_evaluations_registered.
Qed.
End facts.

(** *** The statements at concrete repositories *)

Import Fixtures.

Lemma store_partial_evaluation_overview_frame_witness :
  example_evaluations
    (store_partial_evaluation_overview
       (store_example_evaluation empty_async_repository
          (evaluation "run" "a" 1))
       (partial_overview "run"))
    "run" ()
  = Return [evaluation "run" "a" 1].
Proof.
  assert (is_Some
            (Base._example_evaluations
               (base (store_example_evaluation empty_async_repository
                        (evaluation "run" "a" 1)))
               !! "run")) as Hreg by (vm_compute; eauto).
  exact (store_partial_evaluation_overview_frame
           (store_example_evaluation empty_async_repository
              (evaluation "run" "a" 1))
           (partial_overview "run") "run" () (or_intror Hreg)).
Defined.

Lemma listed_ids_have_results_witness :
  ∃ results,
    example_evaluations
      (execs empty_async_repository
         [StorePartialEvaluationOverview (partial_overview "run")])
      "run" ()
    = Return results.
Proof.
  apply (listed_ids_have_results
           [StorePartialEvaluationOverview (partial_overview "run")] "run" ()).
  right. vm_compute. left.
Defined.
End AsyncRepositoryExtras.

(** ** Further properties of the model abstraction *)

Module ModelExtras.
Import Py PyFacts Model ModelFacts Invariants.

Section facts.
Context {Params CompletionResponse Client : Type}.
Context `{!AlephAlphaClientProtocol Params CompletionResponse Client}.
Implicit Types (w : world Params) (self : AlephAlphaModel Client).
Implicit Types (f : fields Params) (l o input : loc).

(** *** Objects that exist keep their other parameters *)

Lemma bind_inv {A B} (m : M Params A) (k : A → M Params B) w b w' :
  (m ≫= k) w = Some (b, w') →
  ∃ a w1, m w = Some (a, w1) ∧ k a w1 = Some (b, w').
Proof.
  unfold mbind, M_bind. destruct (m w) as [[a w1]|]; [|done]. eauto.
Qed.

Lemma keeps_refl w : keeps_params w w.
Proof. intros o f Hf. eauto. Qed.

Lemma keeps_trans w1 w2 w3 :
  keeps_params w1 w2 → keeps_params w2 w3 → keeps_params w1 w3.
Proof.
  intros H12 H23 o f Hf.
  destruct (H12 o f Hf) as (f2 & Hf2 & <-).
  destruct (H23 o f2 Hf2) as (f3 & Hf3 & <-). eauto.
Qed.

Lemma keeps_same_dicts w w' : dicts w' = dicts w → keeps_params w w'.
Proof. intros Hd o f Hf. rewrite Hd. eauto. Qed.

Lemma read_list_keeps l w xs w' :
  read_list l w = Some (xs, w') → w' = w.
Proof.
  unfold read_list. destruct (lists w !! l); simpl; [|done]. by intros [= _ <-].
Qed.

Lemma get_dict_inv o w f w' :
  get_dict o w = Some (f, w') → w' = w ∧ dicts w !! o = Some f.
Proof.
  unfold get_dict. destruct (dicts w !! o); simpl; [|done]. by intros [= <- <-].
Qed.

Lemma new_object_keeps f w o w' :
  new_object f w = Some (o, w') → keeps_params w w'.
Proof.
  unfold new_object. intros [= <- <-] o' f' Hf'. simpl.
  rewrite lookup_insert_ne; [eauto|].
  by apply fresh_object_ne in Hf'.
Qed.

Lemma CompleteInput_keeps params w o w' :
  CompleteInput params w = Some (o, w') → keeps_params w w'.
Proof.
  unfold CompleteInput.
  intros (f & w1 & [-> Hf]%get_dict_inv & Hrun)%bind_inv.
  apply bind_inv in Hrun as (ss & w2 & Hss & Hnew).
  apply new_object_keeps in Hnew.
  eapply keeps_trans; [|exact Hnew].
  apply keeps_same_dicts.
  destruct (stop_sequences f) as [l|].
  - apply bind_inv in Hss as (xs & w3 & ->%read_list_keeps & Hss).
    apply bind_inv in Hss as (l' & w4 & Hl' & Hret).
    unfold new_list in Hl'. injection Hl' as <- <-.
    unfold mret, M_ret in Hret. by injection Hret as _ <-.
  - unfold mret, M_ret in Hss. by injection Hss as _ <-.
Qed.

Lemma _add_eot_token_to_stop_sequences_keeps input w o w' :
  _add_eot_token_to_stop_sequences input w = Some (o, w') → keeps_params w w'.
Proof.
  unfold _add_eot_token_to_stop_sequences.
  intros (f & w1 & [-> Hf]%get_dict_inv & Hrun)%bind_inv.
  apply bind_inv in Hrun as ([] & w2 & Hshape & Hnew).
  apply CompleteInput_keeps in Hnew.
  eapply keeps_trans; [|exact Hnew].
  destruct (stop_sequences f) as [l|].
  - apply bind_inv in Hshape as (xs & w3 & ->%read_list_keeps & Hshape).
    apply keeps_same_dicts.
    case_bool_decide.
    + unfold mret, M_ret in Hshape. by injection Hshape as <-.
    + unfold list_append in Hshape.
      destruct (lists w !! l); simpl in Hshape; [|done].
      by injection Hshape as <-.
  - apply bind_inv in Hshape as (l & w3 & Hl & Hset).
    unfold new_list in Hl. injection Hl as <- <-.
    unfold set_stop_sequences in Hset. simpl in Hset.
    rewrite Hf in Hset. simpl in Hset. injection Hset as <-.
    intros o' f' Hf'. simpl. rewrite lookup_insert.
    case_decide; [subst; simplify_eq; eauto|eauto].
Qed.

(** *** Statements *)

(** X17.  [AlephAlphaModel.complete], which the Luminous and Llama 2
    models use as it is, changes no object: it sends one request with the
    input's stop sequences and other parameters as they are and with the
    model's name, logs one entry naming the model, and returns the client's
    answer to that request. *)
Theorem complete_leaves_objects self w input v :
  read_stop_sequences w input = Some v →
  ∃ f out w',
    dicts w !! input = Some f
    ∧ complete self input w = Some (out, w')
    ∧ lists w' = lists w
    ∧ dicts w' = dicts w
    ∧ requests w' = requests w ++ [Sent v (other_params f) (name self)]
    ∧ tracer_log w' = tracer_log w ++ [("Model", name self)]
    ∧ out = from_completion_response
              (client_complete (_client self)
                 (Sent v (other_params f) (name self))).
Proof.
  intros Hv. destruct (read_stop_sequences_inv _ _ _ Hv) as (f & Hf & _).
  exists f. eexists _, _. split; [done|].
  split; [by apply complete_spec|]. done.
Qed.

(** X18.  [Llama3InstructModel.complete] sends exactly one request, with
    the input's other parameters and with the model's name, logs exactly
    one entry naming the model, and returns the client's answer to the
    request it sent. *)
Theorem llama3_complete_one_request self w input v :
  read_stop_sequences w input = Some v →
  ∃ f out w' request,
    dicts w !! input = Some f
    ∧ Llama3InstructModel_complete self input w = Some (out, w')
    ∧ requests w' = requests w ++ [request]
    ∧ sent_params request = other_params f
    ∧ sent_model request = name self
    ∧ tracer_log w' = tracer_log w ++ [("Model", name self)]
    ∧ out = from_completion_response (client_complete (_client self) request).
Proof.
  intros Hv. destruct (read_stop_sequences_inv _ _ _ Hv) as (f & Hf & _).
  destruct (Llama3InstructModel_complete_spec self w input f v Hf Hv)
    as (w' & Hrun & Hreq & Hlog & _).
  exists f. eexists _, w', _. by split_and!.
Qed.

Lemma shaped_stop_sequences_elem_of v s :
  s ∈ shaped_stop_sequences v
  ↔ (∃ xs, v = Some xs ∧ s ∈ xs) ∨ s = EOT_TOKEN.
Proof.
  destruct v as [xs|]; simpl.
  - case_bool_decide as Heot.
    + split; [eauto|]. intros [(xs' & [= <-] & ?)| ->]; done.
    + rewrite elem_of_app, list_elem_of_singleton. split.
      * intros [?| ->]; eauto.
      * intros [(xs' & [= <-] & ?)| ->]; eauto.
  - rewrite list_elem_of_singleton. split; [eauto|].
    by intros [(xs' & [=] & _)| ->].
Qed.

(** X19.  The stop sequences that [Llama3InstructModel.complete] sends
    always hold the end-of-turn marker, begin with the caller's stop
    sequences in their order, are at most one element longer, and hold no
    string other than the caller's and the marker. *)
Theorem llama3_sent_extends_input self w input xs :
  read_stop_sequences w input = Some (Some xs) →
  ∃ out w' request sent,
    Llama3InstructModel_complete self input w = Some (out, w')
    ∧ requests w' = requests w ++ [request]
    ∧ sent_stop_sequences request = Some sent
    ∧ EOT_TOKEN ∈ sent
    ∧ xs `prefix_of` sent
    ∧ length sent ≤ S (length xs)
    ∧ ∀ s, s ∈ sent ↔ s ∈ xs ∨ s = EOT_TOKEN.
Proof.
  intros Hv. destruct (read_stop_sequences_inv _ _ _ Hv) as (f & Hf & _).
  destruct (Llama3InstructModel_complete_spec self w input f _ Hf Hv)
    as (w' & Hrun & Hreq & _ & _).
  eexists _, w', _, _. split_and!; [exact Hrun|exact Hreq|done|..].
  - apply shaped_stop_sequences_elem_of. by right.
  - simpl. case_bool_decide; [done|]. by apply prefix_app_r.
  - simpl. case_bool_decide; [lia|]. rewrite length_app. simpl. lia.
  - intros s. rewrite shaped_stop_sequences_elem_of. split.
    + intros [(xs' & [= <-] & ?)| ->]; eauto.
    + intros [?| ->]; eauto.
Qed.

Lemma shaped_stop_sequences_idemp v :
  shaped_stop_sequences (Some (shaped_stop_sequences v))
  = shaped_stop_sequences v.
Proof.
  simpl. rewrite bool_decide_eq_true_2; [done|].
  apply shaped_stop_sequences_elem_of. by right.
Qed.

(** X20.  Calling [Llama3InstructModel.complete] twice with the same input
    object sends the same request twice, and the second call leaves the
    stop sequences that the first call left in the input. *)
Theorem llama3_complete_twice self w input v :
  read_stop_sequences w input = Some v →
  ∃ out1 w1 out2 w2 request,
    Llama3InstructModel_complete self input w = Some (out1, w1)
    ∧ Llama3InstructModel_complete self input w1 = Some (out2, w2)
    ∧ requests w2 = requests w ++ [request; request]
    ∧ read_stop_sequences w2 input = read_stop_sequences w1 input.
Proof.
  intros Hv. destruct (read_stop_sequences_inv _ _ _ Hv) as (f & Hf & _).
  destruct (Llama3InstructModel_complete_spec self w input f v Hf Hv)
    as (w1 & Hrun1 & Hreq1 & _ & Hv1).
  assert (keeps_params w w1) as Hkeeps.
  { unfold Llama3InstructModel_complete in Hrun1.
    apply bind_inv in Hrun1 as (o & w0 & Hshape & Hcomplete).
    apply _add_eot_token_to_stop_sequences_keeps in Hshape.
    eapply keeps_trans; [exact Hshape|]. apply keeps_same_dicts.
    unfold complete, run, do_run, complete_call, send, log,
      to_completion_request in Hcomplete.
    apply bind_inv in Hcomplete as ([] & w2 & [= <-] & Hcomplete).
    apply bind_inv in Hcomplete as (fo & w3 & [-> _]%get_dict_inv & Hcomplete).
    apply bind_inv in Hcomplete as (r & w4 & Hcomplete & [= _ <-]).
    apply bind_inv in Hcomplete as (ss & w5 & Hss & [= _ <-]).
    destruct (stop_sequences fo).
    - apply bind_inv in Hss as (xs & w6 & ->%read_list_keeps & [= _ <-]).
      done.
    - by injection Hss as _ <-. }
  destruct (Hkeeps input f Hf) as (f1 & Hf1 & Hother).
  destruct (Llama3InstructModel_complete_spec self w1 input f1 _ Hf1 Hv1)
    as (w2 & Hrun2 & Hreq2 & _ & Hv2).
  rewrite shaped_stop_sequences_idemp, Hother in Hrun2, Hreq2.
  rewrite shaped_stop_sequences_idemp in Hv2.
  eexists _, w1, _, w2, _. split_and!; [exact Hrun1|exact Hrun2|..].
  - by rewrite Hreq2, Hreq1, <-app_assoc.
  - by rewrite Hv2, Hv1.
Qed.

Lemma nth_context_size_memoised self' (k : nat) (n : Z) :
  nth_context_size self' k (Some n) = Return n.
Proof. induction k as [|k IH]; simpl; done. Qed.

(** X21.  Once a read of [context_size] has returned a value, every later
    read of the object, as long as the memoised entry is kept, returns that
    value without consulting the registry, whatever the client, by then
    [client'], would answer; a read that raised memoises nothing, so the
    next read queries the registry again. *)
Theorem context_size_memoised self (client' : Client) (k : nat) :
  (∀ n, context_size self = Return n →
        nth_context_size {| name := name self; _client := client' |} k
          (read_context_size self None).2
        = Return n)
  ∧ (∀ err, context_size self = Raise err →
            nth_context_size {| name := name self; _client := client' |} k
              (read_context_size self None).2
            = context_size {| name := name self; _client := client' |}).
Proof.
  unfold read_context_size. split.
  - intros n ->. simpl. apply nth_context_size_memoised.
  - intros err ->. simpl. by apply nth_context_size_memo.
Qed.
End facts.

(** *** The statements at concrete worlds *)

Import Fixtures.

Lemma complete_leaves_objects_witness :
  ∃ out w',
    complete llama3 1%positive (world_with_input ["stop"]) = Some (out, w')
    ∧ lists w' = lists (world_with_input ["stop"])
    ∧ dicts w' = dicts (world_with_input ["stop"])
    ∧ requests w' = [Sent (Some ["stop"]) () "llama-3-8b-instruct"].
Proof.
  destruct (complete_leaves_objects llama3 (world_with_input ["stop"])
              1%positive (Some ["stop"]) eq_refl)
    as (f & out & w' & Hf & Hrun & Hlists & Hdicts & Hreq & _).
  exists out, w'. split_and!; [exact Hrun|exact Hlists|exact Hdicts|].
  rewrite Hreq. injection Hf as <-. reflexivity.
Defined.

Lemma llama3_complete_one_request_witness :
  ∃ out w' request,
    Llama3InstructModel_complete llama3 1%positive (world_with_input ["stop"])
    = Some (out, w')
    ∧ requests w' = [request]
    ∧ sent_model request = "llama-3-8b-instruct"
    ∧ tracer_log w' = [("Model", "llama-3-8b-instruct")].
Proof.
  destruct (llama3_complete_one_request llama3 (world_with_input ["stop"])
              1%positive (Some ["stop"]) eq_refl)
    as (f & out & w' & request & _ & Hrun & Hreq & _ & Hmodel & Hlog & _).
  exists out, w', request.
  split_and!; [exact Hrun|exact Hreq|exact Hmodel|exact Hlog].
Defined.

Lemma llama3_sent_extends_input_witness :
  ∃ out w' request sent,
    Llama3InstructModel_complete llama3 1%positive (world_with_input ["stop"])
    = Some (out, w')
    ∧ requests w' = [request]
    ∧ sent_stop_sequences request = Some sent
    ∧ EOT_TOKEN ∈ sent
    ∧ ["stop"] `prefix_of` sent.
Proof.
  destruct (llama3_sent_extends_input llama3 (world_with_input ["stop"])
              1%positive ["stop"] eq_refl)
    as (out & w' & request & sent & Hrun & Hreq & Hsent & Heot & Hpre & _).
  exists out, w', request, sent.
  split_and!; [exact Hrun|exact Hreq|exact Hsent|exact Heot|exact Hpre].
Defined.

Lemma llama3_complete_twice_witness :
  ∃ out1 w1 out2 w2 request,
    Llama3InstructModel_complete llama3 1%positive world_with_input_None
    = Some (out1, w1)
    ∧ Llama3InstructModel_complete llama3 1%positive w1 = Some (out2, w2)
    ∧ requests w2 = [request; request]
    ∧ read_stop_sequences w2 1%positive = read_stop_sequences w1 1%positive.
Proof.
  destruct (llama3_complete_twice llama3 world_with_input_None
              1%positive None eq_refl)
    as (out1 & w1 & out2 & w2 & request & Hrun1 & Hrun2 & Hreq & Hread).
  exists out1, w1, out2, w2, request.
  split_and!; [exact Hrun1|exact Hrun2|exact Hreq|exact Hread].
Defined.
End ModelExtras.

(** ** [retry] of the Argilla client tests *)

Module RetryFacts.
Import TestArgillaClient.

Section facts.
Context {S R : Type} (f : S → R * S) (until : R → bool).

Lemma for_range_inl range i0 s r s' :
  for_range range i0 f until s = (inl r, s')
  ↔ ∃ k, k < length range
         ∧ call_n f s k = (r, s')
         ∧ until r = true
         ∧ ∀ j, j < k → until (call_n f s j).1 = false.
Proof.
  revert i0 s. induction range as [|i range IH]; intros i0 s; simpl.
  - split; [done|]. intros (k & Hk & _). lia.
  - destruct (f s) as [r0 s0] eqn:Hf. destruct (until r0) eqn:Hu.
    + split.
      * intros [= <- <-]. exists 0. split_and!; [lia|done|done|].
        intros j Hj. lia.
      * intros (k & _ & Hcall & _ & Hfirst). destruct k as [|k].
        -- simpl in Hcall. congruence.
        -- specialize (Hfirst 0 ltac:(lia)). simpl in Hfirst.
           rewrite Hf in Hfirst. simpl in Hfirst. congruence.
    + rewrite IH. split.
      * intros (k & Hk & Hcall & Hr & Hfirst). exists (Datatypes.S k).
        split_and!; [lia| |done|].
        -- simpl. by rewrite Hf.
        -- intros [|j] Hj; simpl; rewrite Hf; simpl; [done|].
           apply Hfirst. lia.
      * intros (k & Hk & Hcall & Hr & Hfirst). destruct k as [|k].
        -- simpl in Hcall. rewrite Hf in Hcall. congruence.
        -- exists k. split_and!; [lia| |done|].
           ++ simpl in Hcall. by rewrite Hf in Hcall.
           ++ intros j Hj. specialize (Hfirst (Datatypes.S j) ltac:(lia)).
              simpl in Hfirst. by rewrite Hf in Hfirst.
Qed.

Lemma for_range_inr range i0 s i s' :
  for_range range i0 f until s = (inr i, s')
  ↔ (∀ j, j < length range → until (call_n f s j).1 = false)
    ∧ i = default i0 (last range)
    ∧ s' = state_after f s (length range).
Proof.
  revert i0 s. induction range as [|i1 range IH]; intros i0 s; simpl.
  - split.
    + intros [= <- <-]. split_and!; [|done..]. intros j Hj. lia.
    + by intros (_ & -> & ->).
  - destruct (f s) as [r0 s0] eqn:Hf.
    assert (default i0 (last (i1 :: range)) = default i1 (last range)) as ->.
    { rewrite last_cons. by destruct (last range). }
    destruct (until r0) eqn:Hu.
    + split; [done|]. intros (Hnone & _).
      specialize (Hnone 0 ltac:(lia)). simpl in Hnone.
      rewrite Hf in Hnone. simpl in Hnone. congruence.
    + rewrite IH. split.
      * intros (Hnone & -> & ->). split_and!; [|done..].
        intros [|j] Hj; simpl; rewrite Hf; simpl; [done|].
        apply Hnone. lia.
      * intros (Hnone & -> & ->). split_and!; [|done..].
        intros j Hj. specialize (Hnone (Datatypes.S j) ltac:(lia)).
        simpl in Hnone. by rewrite Hf in Hnone.
Qed.

(** X22.  [retry(f, until)] returns [r] exactly when [r] is the result of
    one of the first ten calls of [f], [until] accepts it, and [until]
    rejected the result of every earlier call; [f] is not called again
    after that call. *)
Theorem retry_returns_first_accepted s r s' :
  retry f until s = (Returned r, s')
  ↔ ∃ k, k < 10
         ∧ call_n f s k = (r, s')
         ∧ until r = true
         ∧ ∀ j, j < k → until (call_n f s j).1 = false.
Proof.
  rewrite <-(for_range_inl (seq 0 10) 0). unfold retry.
  destruct (for_range (seq 0 10) 0 f until s) as [[r0|i] s0].
  - split; by intros [= <- <-].
  - split; intros [=].
Qed.

(** X23.  [retry(f, until)] fails its assertion exactly when [until]
    rejects the results of the first ten calls of [f]; it has then called
    [f] ten times, and the message counts nine retries. *)
Theorem retry_gives_up s msg s' :
  retry f until s = (AssertionError msg, s')
  ↔ (∀ j, j < 10 → until (call_n f s j).1 = false)
    ∧ msg = "Condition not met after 9 retries"
    ∧ s' = state_after f s 10.
Proof.
  unfold retry.
  destruct (for_range (seq 0 10) 0 f until s) as [[r0|i] s0] eqn:Hloop.
  - split; [intros [=]|]. intros (Hnone & _).
    apply for_range_inl in Hloop as (k & Hk & Hcall & Hr & _).
    specialize (Hnone k Hk). rewrite Hcall in Hnone. simpl in *. congruence.
  - apply for_range_inr in Hloop as (Hnone & -> & ->). split.
    + by intros [= <- <-].
    + by intros (_ & -> & ->).
Qed.
End facts.

(** [f] counts its calls; the fourth call returns [3]. *)
Example retry_counter :
  retry (λ n : nat, (n, Datatypes.S n)) (λ r, bool_decide (r = 3)) 0
  = (Returned 3, 4)
  ∧ retry (λ n : nat, (n, Datatypes.S n)) (λ r, bool_decide (r = 10)) 0
    = (AssertionError "Condition not met after 9 retries", 10).
Proof. split; by vm_compute. Qed.
End RetryFacts.

(** ** Renderings of datasets and examples *)

Module DomainFacts.
Import Domain.

Lemma string_app_cons c (s t : string) :
  String c s +:+ t = String c (s +:+ t).
Proof. done. Qed.

Lemma string_app_nil (t : string) : "" +:+ t = t.
Proof. done. Qed.

Lemma string_length_app (s t : string) :
  String.length (s +:+ t) = String.length s + String.length t.
Proof.
  induction s as [|c s IH]; [done|].
  rewrite string_app_cons. simpl. by rewrite IH.
Qed.

Lemma string_app_inj_r (s1 s2 t : string) : s1 +:+ t = s2 +:+ t → s1 = s2.
Proof.
  revert s2. induction s1 as [|c s1 IH]; intros [|c' s2] Heq.
  - done.
  - apply (f_equal String.length) in Heq.
    rewrite string_app_nil, string_length_app in Heq. simpl in Heq. lia.
  - apply (f_equal String.length) in Heq.
    rewrite string_app_nil, string_length_app in Heq. simpl in Heq. lia.
  - rewrite !string_app_cons in Heq. injection Heq as -> Heq.
    by rewrite (IH s2 Heq).
Qed.

Lemma has_newline_cons c (s : string) :
  has_newline (String c s) ↔ c = "010"%char ∨ has_newline s.
Proof.
  unfold has_newline. simpl. rewrite elem_of_cons.
  split; (intros [?|?]; [left; congruence|by right]).
Qed.

(** A first line without a newline is determined by the text. *)
Lemma first_line_inj (a b x y : string) :
  ¬ has_newline a → ¬ has_newline b →
  a +:+ newline +:+ x = b +:+ newline +:+ y →
  a = b ∧ x = y.
Proof.
  revert b. induction a as [|c a IH]; intros [|c' b] Ha Hb Heq.
  - rewrite !string_app_nil in Heq. unfold newline in Heq.
    rewrite !string_app_cons, !string_app_nil in Heq. by injection Heq.
  - rewrite string_app_nil, string_app_cons in Heq. unfold newline in Heq.
    rewrite string_app_cons in Heq. injection Heq as <- _.
    exfalso. apply Hb. apply has_newline_cons. by left.
  - rewrite string_app_nil, string_app_cons in Heq. unfold newline in Heq.
    rewrite (string_app_cons _ "" y) in Heq. injection Heq as -> _.
    exfalso. apply Ha. apply has_newline_cons. by left.
  - rewrite !string_app_cons in Heq. injection Heq as -> Heq.
    destruct (IH b) as [-> ->]; [| |done..].
    + intros H. apply Ha. apply has_newline_cons. by right.
    + intros H. apply Hb. apply has_newline_cons. by right.
Qed.

(** X24.  The rendering of a dataset determines the dataset, for ids
    without a newline such as the generated ones: two datasets with the
    same [__str__] (or [__repr__]) have the same id and the same name. *)
Theorem dataset_str_inj (d1 d2 : Dataset.t) :
  ¬ has_newline (Dataset.id d1) → ¬ has_newline (Dataset.id d2) →
  Dataset.__repr__ d1 = Dataset.__repr__ d2 →
  d1 = d2.
Proof.
  intros H1 H2 Heq. unfold Dataset.__repr__, Dataset.__str__ in Heq.
  apply (inj (String.app "Dataset ID = ")) in Heq.
  apply first_line_inj in Heq as [Hid Heq]; [|done..].
  apply (inj (String.app "Name = ")) in Heq.
  apply string_app_inj_r in Heq.
  destruct d1, d2; simpl in *; congruence.
Qed.

(** X25.  The rendering of an example determines its id, for ids without
    a newline: two examples with the same [__str__] (or [__repr__]) have
    the same id. *)
Theorem example_str_id {Input ExpectedOutput : Type}
    (str_input : Input → string) (str_expected_output : ExpectedOutput → string)
    (e1 e2 : Example.t Input ExpectedOutput) :
  ¬ has_newline (Example.id e1) → ¬ has_newline (Example.id e2) →
  Example.__repr__ str_input str_expected_output e1
  = Example.__repr__ str_input str_expected_output e2 →
  Example.id e1 = Example.id e2.
Proof.
  intros H1 H2 Heq. unfold Example.__repr__, Example.__str__ in Heq.
  apply (inj (String.app "Example ID = ")) in Heq.
  by apply first_line_inj in Heq as [Hid _].
Qed.

(** An id with a newline can make two different datasets render alike. *)
Example dataset_str_newline_clash :
  Dataset.__str__ (Dataset.mk ("a" +:+ newline +:+ "Name = b") "c")
  = Dataset.__str__ (Dataset.mk "a" ("b" +:+ newline +:+ "Name = c")).
Proof. by vm_compute. Qed.

Lemma dataset_str_inj_witness :
  Dataset.mk "7f1c" "qa" = Dataset.mk "7f1c" "qa".
Proof.
  apply (dataset_str_inj (Dataset.mk "7f1c" "qa") (Dataset.mk "7f1c" "qa")).
  - apply (proj1 (bool_decide_eq_false _)). reflexivity.
  - apply (proj1 (bool_decide_eq_false _)). reflexivity.
  - reflexivity.
Defined.

Lemma example_str_id_witness :
  Example.id (Example.mk 1 true "e1") = Example.id (Example.mk 1 true "e1").
Proof.
  apply (example_str_id (λ n : nat, pretty n)
           (λ b : bool, if b then "True" else "False")
           (Example.mk 1 true "e1") (Example.mk 1 true "e1")).
  - apply (proj1 (bool_decide_eq_false _)). reflexivity.
  - apply (proj1 (bool_decide_eq_false _)). reflexivity.
  - reflexivity.
Defined.
End DomainFacts.
